(** * char-rnn-text-generation: the batching pipeline, the symbol codec,
      the seed selector, the truncated sampler and the generation loop

    A shallow embedding of [utils.py] and, from [keras_model.py], of
    [generate_text], of [generate_main] and of the data set-up of
    [train_main], with the properties of the data pipeline proved about
    it.

    Conventions of the embedding.
    - A Python [int] is a [Z]; [//] and [%] are [Z.div] and [Z.modulo]
      (both round towards minus infinity, like Python's) with the
      [ZeroDivisionError] written out.
    - A Python [str] is the list of its code points ([N]); a numpy integer
      array of rank one is a [list Z]; a [dict] is a [gmap].
    - A raised exception is the [Raise] case of [result].
    - A generator is a state machine driven by [next]. *)

From Stdlib Require Import ZArith QArith Qabs.
From stdpp Require Import base list gmap strings fin_maps numbers.

Local Open Scope Z_scope.

(* ================================================================= *)
(** ** Python values, exceptions and built-ins *)

Inductive exception : Type :=
  | ValueError
  | ZeroDivisionError
  | KeyError
  | IndexError
  | StopIteration.

Inductive result (A : Type) : Type :=
  | Ok (a : A)
  | Raise (e : exception).
Arguments Ok {A} a.
Arguments Raise {A} e.

#[global] Instance result_ret : MRet result := λ A a, Ok a.
#[global] Instance result_bind : MBind result := λ A B f m,
  match m with
  | Ok a => f a
  | Raise e => Raise e
  end.

(** [a // b] *)
Definition floordiv (a b : Z) : result Z :=
  if decide (b = 0) then Raise ZeroDivisionError else Ok (a `div` b).

(** [a % b] *)
Definition pymod (a b : Z) : result Z :=
  if decide (b = 0) then Raise ZeroDivisionError else Ok (a `mod` b).

(** [len(l)] *)
Definition len {A} (l : list A) : Z := Z.of_nat (length l).

(** The bound [i] of a slice of a sequence of length [n]: a negative bound
    counts from the end, and every bound is clipped to [0..n]. *)
Definition slice_bound (n i : Z) : Z :=
  if decide (i < 0) then Z.max 0 (i + n) else Z.min i n.

(** [l[i:j]], either bound possibly omitted. *)
Definition slice {A} (l : list A) (i j : option Z) : list A :=
  let n := len l in
  let lo := from_option (slice_bound n) 0 i in
  let hi := from_option (slice_bound n) n j in
  take (Z.to_nat (hi - lo)) (drop (Z.to_nat lo) l).

(** [l[i]] for a list or a rank-one array. *)
Definition getitem {A} (l : list A) (i : Z) : result A :=
  let n := len l in
  let k := if decide (i < 0) then i + n else i in
  if decide (0 <= k < n) then
    match l !! Z.to_nat k with
    | Some a => Ok a
    | None => Raise IndexError
    end
  else Raise IndexError.

(** [sorted(l)] for a key order [leb]: a stable sort. *)
Fixpoint insert_sorted {A} (leb : A → A → bool) (a : A) (l : list A) : list A :=
  match l with
  | [] => [a]
  | b :: l' => if leb a b then a :: l else b :: insert_sorted leb a l'
  end.

Definition sorted {A} (leb : A → A → bool) (l : list A) : list A :=
  foldr (insert_sorted leb) [] l.

(** [dict(pairs)]: a later pair overrides an earlier one with the same key. *)
Definition dict `{Countable K} {V} (pairs : list (K * V)) : gmap K V :=
  foldl (λ m kv, <[kv.1:=kv.2]> m) ∅ pairs.

(** [enumerate(l)] *)
Definition enumerate {A} (l : list A) : list (Z * A) :=
  imap (λ i a, (Z.of_nat i, a)) l.

(** The code points of a string literal. *)
Definition str (s : string) : list N :=
  Ascii.N_of_ascii <$> String.list_ascii_of_string s.

(* ================================================================= *)
(** ** [string.printable] *)

Definition digits : list N := str "0123456789".
Definition ascii_lowercase : list N := str "abcdefghijklmnopqrstuvwxyz".
Definition ascii_uppercase : list N := str "ABCDEFGHIJKLMNOPQRSTUVWXYZ".
(** [!], the double quote, then [#$%&'()*+,-./:;<=>?@[\]^_`{|}~] *)
Definition punctuation : list N :=
  (str "!" ++ [34%N] ++ str "#$%&'()*+,-./:;<=>?@[\]^_`{|}~")%list.
(** space, [\t], [\n], [\r], [\x0b], [\x0c] *)
Definition whitespace : list N := [32; 9; 10; 13; 11; 12]%N.
Definition printable : list N :=
  (digits ++ ascii_lowercase ++ ascii_uppercase ++ punctuation ++ whitespace)%list.

(* ================================================================= *)
(** ** Symbol codec ([utils.py], lines 42-68) *)

(** [chars] of [create_dictionary]: the printable characters without
    [\x0b], [\x0c] and [\r], in code point order. *)
Definition chars : list N :=
  sorted N.leb (filter (λ ch, ch ∉ [11; 12; 13]%N) printable).

Record dictionary : Type := {
  char2id : gmap (list N) Z;
  id2char : gmap Z (list N);
  vocab_size : Z
}.

Definition create_dictionary : dictionary :=
  let char2id := dict ((λ p, ([p.2], p.1 + 1)) <$> enumerate chars) in
  let char2id := <[ [] := 0 ]> char2id in
  let id2char := dict ((λ kv, (kv.2, kv.1)) <$> map_to_list char2id) in
  {| char2id := char2id;
     id2char := id2char;
     vocab_size := Z.of_nat (size char2id) |}.

Definition CHAR2ID : gmap (list N) Z := char2id create_dictionary.
Definition ID2CHAR : gmap Z (list N) := id2char create_dictionary.
Definition VOCAB_SIZE : Z := vocab_size create_dictionary.

(** [encode_text]: [char2id.get(ch, 0)] for every character of [text]. *)
Definition encode_text (text : list N) (char2id : gmap (list N) Z) : list Z :=
  (λ ch, default 0 (char2id !! [ch])) <$> text.

(** [decode_text]: the concatenation of [id2char[i]] over the array; a key
    that is not in the dictionary raises [KeyError]. *)
Fixpoint decode_text (int_array : list Z) (id2char : gmap Z (list N))
    : result (list N) :=
  match int_array with
  | [] => Ok []
  | i :: rest =>
      match id2char !! i with
      | None => Raise KeyError
      | Some s => r ← decode_text rest id2char; Ok (s ++ r)%list
      end
  end.

(** The characters the codec supports. *)
Definition supported (ch : N) : Prop := ch ∈ chars.

#[global] Instance supported_dec ch : Decision (supported ch).
Proof. unfold supported. apply _. Defined.

(** Every key of [CHAR2ID] is the empty string or one supported character. *)
Definition codec_key (k : list N) : Prop :=
  match k with
  | [] => True
  | [ch] => supported ch
  | _ => False
  end.

#[local] Instance codec_key_dec k : Decision (codec_key k).
Proof. destruct k as [|ch [|? ?]]; simpl; apply _. Defined.

(* ================================================================= *)
(** ** numpy arrays *)

(** A [float64]: a finite value, kept as an exact rational (rounding is
    not modelled), an infinity or a NaN. *)
Inductive float64 : Type :=
  | Fin (q : Q)
  | PInf
  | NInf
  | NaN.

(** A cell of a batch array: a token id, or the row of [np.eye] that
    [one_hot_encode] puts in its place. *)
Inductive cell : Type :=
  | Id (i : Z)
  | OneHot (v : list float64).

(** A rank-two array: its shape and its rows. *)
Record array2 (A : Type) : Type := Array2 {
  nrows : nat;
  ncols : nat;
  rows : list (list A)
}.
Arguments Array2 {A} nrows ncols rows.
Arguments nrows {A} a.
Arguments ncols {A} a.
Arguments rows {A} a.

(** [a[b, t]] for [0 <= b], [0 <= t]. *)
Definition item {A} (a : array2 A) (b t : nat) : option A :=
  rows a !! b ≫= (λ row, row !! t).

Definition amap {A B} (f : A → B) (a : array2 A) : array2 B :=
  Array2 (nrows a) (ncols a) ((λ row : list A, f <$> row) <$> rows a).

(** [np.reshape(a, [r, c])], row-major.  A negative dimension raises
    [ValueError] here.  numpy reads a dimension of -1 as "whatever fits";
    with natural batch sizes the generators reach [np.reshape] with a -1
    only for an empty sequence, and [np.split] then raises the
    [ValueError] instead. *)
Definition np_reshape {A} (a : list A) (r c : Z) : result (array2 A) :=
  if decide (0 <= r ∧ 0 <= c ∧ r * c = len a) then
    Ok (Array2 (Z.to_nat r) (Z.to_nat c)
          ((λ i, take (Z.to_nat c) (drop (i * Z.to_nat c) a))
             <$> seq 0 (Z.to_nat r)))
  else Raise ValueError.

(** [np.roll(a, shift, axis=0)]: row [i] of the result is row
    [(i - shift) mod nrows] of [a]. *)
Definition np_roll {A} (a : array2 A) (shift : Z) : array2 A :=
  Array2 (nrows a) (ncols a)
    (rotate (Z.to_nat ((- shift) `mod` Z.of_nat (nrows a))) (rows a)).

(** Columns [k*w .. (k+1)*w - 1] of [a]. *)
Definition columns {A} (a : array2 A) (w k : nat) : array2 A :=
  Array2 (nrows a) w ((λ row, take w (drop (k * w) row)) <$> rows a).

(** [np.split(a, sections, axis=1)] for an integer [sections]: the
    [sections] blocks of equally many columns.  numpy raises [ValueError]
    when the columns do not divide evenly or [sections] is not positive, so
    a result has a first block. *)
Definition np_split {A} (a : array2 A) (sections : Z)
    : result (array2 A * list (array2 A)) :=
  r ← pymod (Z.of_nat (ncols a)) sections;
  if decide (r ≠ 0) then Raise ValueError
  else if decide (sections <= 0) then Raise ValueError
  else
    let w := Z.to_nat (Z.of_nat (ncols a) `div` sections) in
    Ok (columns a w 0, columns a w <$> seq 1 (Z.to_nat sections - 1)).

(** Row [k] of [np.eye(n)]. *)
Definition eye_row (n k : nat) : list float64 :=
  (λ j, if decide (j = k) then Fin 1 else Fin 0) <$> seq 0 n.

(** [np.eye(num_classes)[i]]: a negative index counts from the end, and an
    index outside [-num_classes .. num_classes - 1] raises [IndexError]. *)
Definition eye_getitem (num_classes : Z) (i : Z) : result (list float64) :=
  if decide (- num_classes <= i < num_classes) then
    Ok (eye_row (Z.to_nat num_classes) (Z.to_nat (i `mod` num_classes)))
  else Raise IndexError.

Fixpoint mapM {A B} (f : A → result B) (l : list A) : result (list B) :=
  match l with
  | [] => Ok []
  | a :: l' => b ← f a; bs ← mapM f l'; Ok (b :: bs)
  end.

(** [one_hot_encode(indices, num_classes)] on a rank-two array. *)
Definition one_hot_encode (indices : array2 Z) (num_classes : Z)
    : result (array2 cell) :=
  rs ← mapM (mapM (λ i, v ← eye_getitem num_classes i; Ok (OneHot v)))
        (rows indices);
  Ok (Array2 (nrows indices) (ncols indices) rs).

(** The array handed on: one-hot encoded when the flag is set. *)
Definition encode_cells (one_hot : bool) (a : array2 Z) : result (array2 cell) :=
  if one_hot then one_hot_encode a VOCAB_SIZE else Ok (amap Id a).

(* ================================================================= *)
(** ** In-memory batch generator ([utils.py], lines 78-109) *)

Definition batch : Type := array2 cell * array2 cell.

(** The local variables of the generator while it is suspended at its
    [yield]; [pending] holds the batches of the current epoch that the
    [for] loop has not reached yet. *)
Record batch_frame : Type := BatchFrame {
  num_batches : Z;
  x : array2 cell;
  y : array2 cell;
  epoch : Z;
  pending : list batch
}.

Inductive batch_gen : Type :=
  | Created (sequence : list Z) (batch_size seq_len : nat)
      (one_hot_features one_hot_labels : bool)
  | Suspended (fr : batch_frame)
  | Finished.

(** Calling the generator function runs none of its body. *)
Definition batch_generator (sequence : list Z) (batch_size seq_len : nat)
    (one_hot_features one_hot_labels : bool) : batch_gen :=
  Created sequence batch_size seq_len one_hot_features one_hot_labels.

(** Lines 84-100: the set-up before the loop. *)
Definition batch_setup (sequence : list Z) (batch_size seq_len : nat)
    (one_hot_features one_hot_labels : bool)
    : result (Z * array2 cell * array2 cell) :=
  let B := Z.of_nat batch_size in
  let L := Z.of_nat seq_len in
  num_batches ← floordiv (len sequence - 1) (B * L);
  if decide (num_batches = 0) then Raise ValueError
  else
    let rounded_len := num_batches * B * L in
    x ← np_reshape (slice sequence None (Some rounded_len)) B (num_batches * L);
    x ← encode_cells one_hot_features x;
    y ← np_reshape (slice sequence (Some 1) (Some (rounded_len + 1)))
          B (num_batches * L);
    y ← encode_cells one_hot_labels y;
    Ok (num_batches, x, y).

(** Lines 105-108: roll, split, and run the [for] loop up to its first
    [yield]. *)
Definition begin_epoch (num_batches : Z) (x y : array2 cell) (epoch : Z)
    : result (batch * batch_frame) :=
  x_epoch ← np_split (np_roll x (- epoch)) num_batches;
  y_epoch ← np_split (np_roll y (- epoch)) num_batches;
  Ok ((x_epoch.1, y_epoch.1),
      BatchFrame num_batches x y epoch (zip x_epoch.2 y_epoch.2)).

(** [next(g)]: the value yielded or the exception raised, and the
    generator afterwards. *)
Definition next_batch (g : batch_gen) : result batch * batch_gen :=
  let resume (r : result (batch * batch_frame)) :=
    match r with
    | Ok (b, fr) => (Ok b, Suspended fr)
    | Raise e => (Raise e, Finished)
    end in
  match g with
  | Created sequence batch_size seq_len ohf ohl =>
      resume (s ← batch_setup sequence batch_size seq_len ohf ohl;
              begin_epoch s.1.1 s.1.2 s.2 0)
  | Suspended fr =>
      match pending fr with
      | b :: rest =>
          (Ok b, Suspended (BatchFrame (num_batches fr) (x fr) (y fr)
                              (epoch fr) rest))
      | [] =>
          resume (begin_epoch (num_batches fr) (x fr) (y fr) (epoch fr + 1))
      end
  | Finished => (Raise StopIteration, Finished)
  end.

(** The generator after [n] calls of [next]. *)
Fixpoint after_batches (n : nat) (g : batch_gen) : batch_gen :=
  match n with
  | O => g
  | S n' => after_batches n' (next_batch g).2
  end.

(** What the call number [n] of [next] returns, counting from 0. *)
Definition nth_batch (n : nat) (g : batch_gen) : result batch :=
  (next_batch (after_batches n g)).1.

(* ================================================================= *)
(** ** Streaming batch generator ([utils.py], lines 113-184) *)

(** An open text file: its characters and the read position.  Every
    character takes one byte and is read as it is, so that positions and
    sizes count bytes and characters alike. *)
Record file : Type := File {
  content : list N;
  position : nat
}.

(** [os.path.getsize] *)
Definition getsize (text : list N) : Z := len text.

(** [file.tell()] *)
Definition tell (f : file) : Z := Z.of_nat (position f).

(** [file.seek(0)] *)
Definition seek0 (f : file) : file := File (content f) 0.

(** [file.read(n)] for [0 <= n]: up to [n] characters from the position. *)
Definition read (f : file) (n : nat) : list N * file :=
  let data := take n (drop (position f) (content f)) in
  (data, File (content f) (position f + length data)).

(** The arguments of [io_batch_generator]; [io_text] is the content of the
    file at [text_path]. *)
Record io_args : Type := IoArgs {
  io_text : list N;
  max_bytes_in_ram : nat;
  io_batch_size : nat;
  io_seq_len : nat;
  io_one_hot_features : bool;
  io_one_hot_labels : bool
}.

Definition io_batch : Type := array2 cell * array2 cell * Z.

(** The generator suspended at its [yield]. *)
Record io_frame : Type := IoFrame {
  io_file : file;
  effective_file_end : Z;
  io_epoch : Z;
  io_pending : list batch
}.

Inductive io_gen : Type :=
  | IoCreated (args : io_args)
  | IoSuspended (args : io_args) (fr : io_frame)
  | IoFinished.

Definition io_batch_generator (text : list N) (max_bytes_in_ram : nat)
    (batch_size seq_len : nat) (one_hot_features one_hot_labels : bool)
    : io_gen :=
  IoCreated (IoArgs text max_bytes_in_ram batch_size seq_len
               one_hot_features one_hot_labels).

(** Lines 134-177: one turn of the [while] loop up to its first [yield]. *)
Definition io_turn (args : io_args) (effective_file_end : Z)
    (f : file) (epoch : Z) : result (io_batch * io_frame) :=
  let M := Z.of_nat (max_bytes_in_ram args) in
  let B := Z.of_nat (io_batch_size args) in
  let L := Z.of_nat (io_seq_len args) in
  let epoch := if decide (tell f = 0) then epoch + 1 else epoch in
  let chunk_read := read f (max_bytes_in_ram args) in
  let io_batch := chunk_read.1 in
  let f := chunk_read.2 in
  let f := if decide (tell f + M > effective_file_end) then seek0 f else f in
  let encoded := encode_text io_batch CHAR2ID in
  num_batches ← floordiv (len encoded - 1) (B * L);
  if decide (num_batches = 0) then Raise ValueError
  else
    let rounded_len := num_batches * B * L in
    x ← np_reshape (slice encoded None (Some rounded_len)) B (num_batches * L);
    x ← encode_cells (io_one_hot_features args) x;
    y ← np_reshape (slice encoded (Some 1) (Some (rounded_len + 1)))
          B (num_batches * L);
    y ← encode_cells (io_one_hot_labels args) y;
    x_batches ← np_split x num_batches;
    y_batches ← np_split y num_batches;
    Ok ((x_batches.1, y_batches.1, epoch),
        IoFrame f effective_file_end epoch (zip x_batches.2 y_batches.2)).

(** [next(g)] for the streaming generator. *)
Definition next_io (g : io_gen) : result io_batch * io_gen :=
  let resume args (r : result (io_batch * io_frame)) :=
    match r with
    | Ok (b, fr) => (Ok b, IoSuspended args fr)
    | Raise e => (Raise e, IoFinished)
    end in
  match g with
  | IoCreated args =>
      let total_bytes := getsize (io_text args) in
      resume args
        (r ← pymod total_bytes (Z.of_nat (max_bytes_in_ram args));
         io_turn args (total_bytes - r) (File (io_text args) 0) 0)
  | IoSuspended args fr =>
      match io_pending fr with
      | b :: rest =>
          (Ok (b, io_epoch fr),
           IoSuspended args
             (IoFrame (io_file fr) (effective_file_end fr) (io_epoch fr) rest))
      | [] =>
          resume args
            (io_turn args (effective_file_end fr) (io_file fr) (io_epoch fr))
      end
  | IoFinished => (Raise StopIteration, IoFinished)
  end.

Fixpoint after_io_batches (n : nat) (g : io_gen) : io_gen :=
  match n with
  | O => g
  | S n' => after_io_batches n' (next_io g).2
  end.

Definition nth_io_batch (n : nat) (g : io_gen) : result io_batch :=
  (next_io (after_io_batches n g)).1.

(* ================================================================= *)
(** ** Pseudo-random sources *)

(** The state of a pseudo-random source: the raw draws still to come.
    Nothing is assumed about them, so a property proved for every state
    holds for every seed of the generator. *)
Definition random_state : Type := nat → N.

Definition advance (s : random_state) : random_state := λ n, s (S n).

(** [random._randbelow(n)] for [0 < n]: an integer in [0 .. n-1].  Python
    builds it from random bits; here it is the next raw draw reduced modulo
    [n], so that every value of the range is drawn for some state. *)
Definition randbelow (n : Z) (s : random_state) : Z * random_state :=
  (Z.of_N (s 0%nat) `mod` n, advance s).

(** [random.choice(seq)]: [IndexError] on an empty sequence. *)
Definition random_choice {A} (seq : list A) (s : random_state)
    : result A * random_state :=
  if decide (len seq = 0) then (Raise IndexError, s)
  else let r := randbelow (len seq) s in (getitem seq r.1, r.2).

(** [random.randint(a, b)]: an integer in [a .. b], and [ValueError] when
    the range is empty. *)
Definition random_randint (a b : Z) (s : random_state)
    : result Z * random_state :=
  if decide (b + 1 - a <= 0) then (Raise ValueError, s)
  else let r := randbelow (b + 1 - a) s in (Ok (a + r.1), r.2).

(** [np.random.random_sample()]: a double in [0, 1), of the form
    [k / 2^53]. *)
Definition random_sample (s : random_state) : Q * random_state :=
  (Qred (Qmake (Z.of_N (s 0%nat) `mod` 2 ^ 53) (2 ^ 53)), advance s).

(* ================================================================= *)
(** ** Seed selector ([utils.py], lines 190-199) *)

Definition generate_seed (text : list N) (seq_lens : list Z) (s : random_state)
    : result (list N) * random_state :=
  let c := random_choice seq_lens s in
  match c.1 with
  | Raise e => (Raise e, c.2)
  | Ok seq_len =>
      let r := random_randint 0 (len text - seq_len - 1) c.2 in
      match r.1 with
      | Raise e => (Raise e, r.2)
      | Ok start_index =>
          (Ok (slice text (Some start_index) (Some (start_index + seq_len))),
           r.2)
      end
  end.

(** The default [seq_lens]. *)
Definition default_seq_lens : list Z := [2; 4; 8; 16; 32].

(* ================================================================= *)
(** ** Truncated sampler ([utils.py], lines 202-213) *)

Definition is_nan (a : float64) : bool :=
  match a with NaN => true | _ => false end.

(** [a + b] *)
Definition fadd (a b : float64) : float64 :=
  match a, b with
  | NaN, _ | _, NaN => NaN
  | PInf, NInf | NInf, PInf => NaN
  | PInf, _ | _, PInf => PInf
  | NInf, _ | _, NInf => NInf
  | Fin p, Fin q => Fin (Qred (p + q))
  end.

(** [a / b] as numpy computes it on arrays: a division by zero gives an
    infinity, or a NaN for [0 / 0], and raises nothing. *)
Definition fdiv (a b : float64) : float64 :=
  match a, b with
  | NaN, _ | _, NaN => NaN
  | Fin p, Fin q =>
      if Qeq_bool q 0 then
        if Qeq_bool p 0 then NaN
        else if Qle_bool 0 p then PInf else NInf
      else Fin (Qred (p / q))
  | Fin _, _ => Fin 0
  | _, Fin q =>
      if Qle_bool 0 q then a
      else match a with PInf => NInf | _ => PInf end
  | _, _ => NaN
  end.

(** [a < b]; false when either side is a NaN. *)
Definition flt (a b : float64) : bool :=
  match a, b with
  | NaN, _ | _, NaN => false
  | _, NInf | PInf, _ => false
  | NInf, _ | _, PInf => true
  | Fin p, Fin q => negb (Qle_bool q p)
  end.

(** The order of a sort: [a <= b], with NaN after everything else. *)
Definition sort_le (a b : float64) : bool :=
  match a, b with
  | _, NaN => true
  | NaN, _ => false
  | _, _ => negb (flt b a)
  end.

(** [np.argsort(a)]: the indices of [a] in ascending order of the values.
    Equal values keep their order here; numpy's default sort does the same
    up to 16 elements and promises no order among equal values beyond. *)
Definition np_argsort (a : list float64) : list Z :=
  fst <$> sorted (λ p q, sort_le p.2 q.2) (enumerate a).

(** [a[idx] = v] for an array [idx] of indices in range. *)
Definition setitems {A} (a : list A) (idx : list Z) (v : A) : list A :=
  foldl (λ acc i, <[Z.to_nat i:=v]> acc) a idx.

(** [np.sum(a)] *)
Definition np_sum (a : list float64) : float64 := foldl fadd (Fin 0) a.

(** [np.cumsum(a)] *)
Fixpoint cumsum_from (acc : float64) (a : list float64) : list float64 :=
  match a with
  | [] => []
  | v :: a' => let acc' := fadd acc v in acc' :: cumsum_from acc' a'
  end.
Definition np_cumsum (a : list float64) : list float64 :=
  match a with
  | [] => []
  | v :: a' => v :: cumsum_from v a'
  end.

(** [a.searchsorted(key, side='right')]: numpy's binary search; [fuel]
    bounds the number of halvings. *)
Fixpoint binsearch_right (fuel : nat) (a : list float64) (key : float64)
    (lo hi : nat) : nat :=
  match fuel with
  | O => lo
  | S fuel' =>
      if decide (lo < hi)%nat then
        let mid := (lo + (hi - lo) `div` 2)%nat in
        match a !! mid with
        | Some v =>
            if flt key v then binsearch_right fuel' a key lo mid
            else binsearch_right fuel' a key (S mid) hi
        | None => lo
        end
      else lo
  end.
Definition searchsorted_right (a : list float64) (key : float64) : nat :=
  binsearch_right (S (length a)) a key 0 (length a).

(** The tolerance of [np.random.choice] on the sum of [p]:
    [sqrt(eps)] for [eps = 2^-52]. *)
Definition choice_atol : float64 := Fin (Qmake 1 (2 ^ 26)).

Definition fabs_diff_1 (a : float64) : float64 :=
  match a with
  | Fin p => Fin (Qred (Qabs (p - 1)))
  | NaN => NaN
  | _ => PInf
  end.

(** [np.random.choice(a, p=p)] for an integer [a]: numpy checks [a] and
    [p] ([ValueError] for an empty population, for a NaN, for a negative
    entry and for a sum that is not 1), then inverts the cumulative
    distribution at one uniform draw. *)
Definition np_random_choice (a : Z) (p : list float64) (s : random_state)
    : result Z * random_state :=
  if decide (a <= 0) then (Raise ValueError, s)
  else if decide (len p ≠ a) then (Raise ValueError, s)
  else if is_nan (np_sum p) then (Raise ValueError, s)
  else if existsb (λ v, flt v (Fin 0)) p then (Raise ValueError, s)
  else if flt choice_atol (fabs_diff_1 (np_sum p)) then (Raise ValueError, s)
  else
    let cdf := np_cumsum p in
    match list.last cdf with
    | None => (Raise IndexError, s)
    | Some total =>
        let cdf := (λ v, fdiv v total) <$> cdf in
        let u := random_sample s in
        (Ok (Z.of_nat (searchsorted_right cdf (Fin u.1))), u.2)
    end.

(** The probabilities after the truncation to the [top_n] largest. *)
Definition truncate_probs (probs : list float64) (top_n : Z) : list float64 :=
  setitems probs (slice (np_argsort probs) None (Some (- top_n))) (Fin 0).

(** The truncated probabilities, renormalised. *)
Definition renormalise (probs : list float64) : list float64 :=
  let total := np_sum probs in (λ v, fdiv v total) <$> probs.

Definition sample_from_probs (probs : list float64) (top_n : Z)
    (s : random_state) : result Z * random_state :=
  let probs := truncate_probs probs top_n in
  let probs := renormalise probs in
  np_random_choice (len probs) probs s.

(* ================================================================= *)
(** ** Generation loop ([keras_model.py], lines 61-89) *)

(** The part of a Keras model that [generate_text] uses: a recurrent
    state, [reset_states], and [predict] on one token, which returns the
    distribution over the next token (already squeezed to rank one) and
    moves the recurrent state, or fails. *)
Record model : Type := Model {
  hidden : Type;
  initial : hidden;
  predict : hidden → Z → result (list float64) * hidden
}.

(** Lines 72-76: feed all but the last token, for the state only. *)
Fixpoint prime (m : model) (h : hidden m) (ids : list Z)
    : result unit * hidden m :=
  match ids with
  | [] => (Ok (), h)
  | idx :: ids' =>
      let r := predict m h idx in
      match r.1 with
      | Raise e => (Raise e, r.2)
      | Ok _ => prime m r.2 ids'
      end
  end.

(** Lines 79-86: [steps] turns of the sampling loop. *)
Fixpoint generate_loop (m : model) (steps : nat) (top_n : Z)
    (h : hidden m) (next_index : Z) (generated : list N) (s : random_state)
    : result (list N) :=
  match steps with
  | O => Ok generated
  | S steps' =>
      let r := predict m h next_index in
      probs ← r.1;
      let c := sample_from_probs probs top_n s in
      next_index ← c.1;
      ch ← from_option Ok (Raise KeyError) (ID2CHAR !! next_index);
      generate_loop m steps' top_n r.2 next_index (generated ++ ch)%list c.2
  end.

Definition generate_text (m : model) (seed : list N) (length top_n : Z)
    (s : random_state) : result (list N) :=
  let generated := seed in
  let encoded := encode_text seed CHAR2ID in
  let h := initial m in
  let p := prime m h (slice encoded None (Some (-1))) in
  _ ← p.1;
  next_index ← getitem encoded (-1);
  generate_loop m (Z.to_nat length) top_n p.2 next_index generated s.

(* ================================================================= *)
(** ** Notions used in the statements *)

(** *** The batches in closed form *)

(** An id that [np.eye(VOCAB_SIZE)] can be indexed with. *)
Definition valid_id (i : Z) : Prop := - VOCAB_SIZE <= i < VOCAB_SIZE.

(** The cell that stands for token [i] in an array. *)
Definition cell_of (one_hot : bool) (i : Z) : cell :=
  if one_hot
  then OneHot (eye_row (Z.to_nat VOCAB_SIZE) (Z.to_nat (i `mod` VOCAB_SIZE)))
  else Id i.

(** The number of batches per epoch, for a sequence of [n] tokens. *)
Definition batches_per_epoch (n batch_size seq_len : nat) : nat :=
  ((n - 1) `div` (batch_size * seq_len))%nat.

(** The grid of [r] rows and [c] columns laid over the tokens [l]. *)
Definition grid (one_hot : bool) (l : list Z) (r c : nat) : array2 cell :=
  amap (cell_of one_hot)
    (Array2 r c ((λ i, take c (drop (i * c) l)) <$> seq 0 r)).

(** The two grids of the set-up: [batch_size] rows over the first
    [rounded_len] tokens, and the same shifted by one token. *)
Definition x_grid (one_hot : bool) (sequence : list Z)
    (batch_size seq_len : nat) : array2 cell :=
  let cols := (batches_per_epoch (length sequence) batch_size seq_len
               * seq_len)%nat in
  grid one_hot (take (batch_size * cols) sequence) batch_size cols.

Definition y_grid (one_hot : bool) (sequence : list Z)
    (batch_size seq_len : nat) : array2 cell :=
  let cols := (batches_per_epoch (length sequence) batch_size seq_len
               * seq_len)%nat in
  grid one_hot (take (batch_size * cols) (drop 1 sequence)) batch_size cols.

(** Batch [k] of epoch [e] of the grids [x] and [y]. *)
Definition batch_at (x y : array2 cell) (seq_len e k : nat) : batch :=
  (columns (np_roll x (- Z.of_nat e)) seq_len k,
   columns (np_roll y (- Z.of_nat e)) seq_len k).



(** The position in the sequence of the token at row [b], time [t] of batch
    [k] of epoch [e]: output row [b] holds grid row [(b + e) mod B], and a
    grid row is [cols] tokens long. *)
Definition token_position (batch_size seq_len cols e k b t : nat) : nat :=
  (((b + e) `mod` batch_size) * cols + k * seq_len + t)%nat.

(** *** The shift invariant *)

(** Call number [n] of [next] belongs to epoch [n / N] and is batch
    [n mod N] of it; row [r] of that batch starts at this position of the
    sequence. *)
Definition lane_start (tokens batch_size seq_len n r : nat) : nat :=
  let N := batches_per_epoch tokens batch_size seq_len in
  token_position batch_size seq_len (N * seq_len)
    (n `div` N) (n `mod` N) r 0.

(** The streaming generator reads the full chunks of the file in turn, or
    the whole file when it is shorter than a chunk. *)
Definition chunk_size (total max_bytes : nat) : nat := Nat.min max_bytes total.

Definition chunks_per_pass (total max_bytes : nat) : nat :=
  Nat.max (total `div` max_bytes) 1.


(** Row [r] of the inputs is the stream from [start r] on, and row [r] of
    the targets is the stream from [start r + 1] on: at every time step the
    target is the token that follows the input. *)
Definition shift_invariant (stream : list Z) (start : nat → nat)
    (batch_size seq_len : nat) (one_hot_features one_hot_labels : bool)
    (b : batch) : Prop :=
  ∀ r t, (r < batch_size)%nat → (t < seq_len)%nat →
    ∃ v w,
      stream !! (start r + t)%nat = Some v ∧
      stream !! S (start r + t) = Some w ∧
      item b.1 r t = Some (cell_of one_hot_features v) ∧
      item b.2 r t = Some (cell_of one_hot_labels w).

(** *** Lanes *)

(** Row [b] of the inputs, and of the targets, of what a call of [next]
    returned. *)
Definition x_row (r : result batch) (b : nat) : list cell :=
  match r with
  | Ok bt => default [] (rows bt.1 !! b)
  | Raise _ => []
  end.

Definition y_row (r : result batch) (b : nat) : list cell :=
  match r with
  | Ok bt => default [] (rows bt.2 !! b)
  | Raise _ => []
  end.

(** The cells for the [n] tokens of the sequence from position [start]. *)
Definition lane_slice (one_hot : bool) (sequence : list Z) (start n : nat)
    : list cell :=
  cell_of one_hot <$> take n (drop start sequence).

(** The reading of lane continuity under which the lane of output row [b]
    moves to output row [(b + 1) mod B] in the next epoch. *)
Definition lane_moves_to_next_row (g : batch_gen) (batch_size N : nat) : Prop :=
  ∀ e b k, (b < batch_size)%nat → (k < N)%nat →
    x_row (nth_batch (S e * N + k) g) (S b `mod` batch_size)
    = x_row (nth_batch (e * N + k) g) b.

#[global] Instance valid_id_dec i : Decision (valid_id i).
Proof. unfold valid_id. apply _. Defined.

(** *** The sampler's truncation *)

(** A value that is exactly zero. *)
Definition is_zero (v : float64) : Prop :=
  match v with
  | Fin q => Qeq_bool q 0 = true
  | _ => False
  end.

(** The indices that the truncation leaves as they are: the part of the
    argsort that [[:-top_n]] does not take. *)
Definition retained (probs : list float64) (top_n : Z) : list Z :=
  slice (np_argsort probs) (Some (- top_n)) None.

(** *** The seed selector's failures *)

(** The smallest candidate length. *)
Definition smallest (seq_lens : list Z) : Z :=
  foldr Z.min (hd 0 seq_lens) seq_lens.

(** The reading under which the seed selector fails exactly for a text
    shorter than the smallest candidate length plus one. *)
Definition fails_iff_below_smallest (text : list N) (seq_lens : list Z) : Prop :=
  ∀ s e, (generate_seed text seq_lens s).1 = Raise e
         ↔ len text < smallest seq_lens + 1.

(** A pseudo-random source whose first two draws are [k] and [j]. *)
Definition two_draws (k j : N) : random_state :=
  λ n, match n with O => k | _ => j end.

(** *** A model that favours the unknown id *)

(** A distribution over the 98 ids with half of the mass on id 0 and the
    rest spread evenly. *)
Definition unknown_first : list float64 :=
  Fin (1 # 2) :: replicate 97 (Fin (1 # 194)).

(** A model without memory that predicts [unknown_first] at every step. *)
Definition unknown_model : model :=
  Model unit () (λ h _, (Ok unknown_first, h)).

(* ================================================================= *)
(** ** Notions used in the further properties *)

(** The shape of a cell: a bare id, or a vector over the vocabulary. *)
Definition cell_shape (one_hot : bool) (c : cell) : Prop :=
  match c with
  | Id _ => one_hot = false
  | OneHot v => one_hot = true ∧ length v = Z.to_nat VOCAB_SIZE
  end.

(** An array of [r] rows and [c] columns, every cell of shape
    [cell_shape one_hot]. *)
Definition has_shape (one_hot : bool) (a : array2 cell) (r c : nat) : Prop :=
  nrows a = r ∧ ncols a = c ∧ length (rows a) = r ∧
  Forall (λ row, length row = c ∧ Forall (cell_shape one_hot) row) (rows a).

(** A list in ascending order of [leb]. *)
Fixpoint ascending {A} (leb : A → A → bool) (l : list A) : Prop :=
  match l with
  | [] => True
  | a :: l' => Forall (λ b, leb a b = true) l' ∧ ascending leb l'
  end.

(** The indices that the truncation sets to zero: the part of the argsort
    that [[:-top_n]] takes. *)
Definition zeroed (probs : list float64) (top_n : Z) : list Z :=
  slice (np_argsort probs) None (Some (- top_n)).

(** The sum of a list of rationals, and its partial sums on top of [acc]. *)
Definition qsum (qs : list Q) : Q := foldr Qplus 0%Q qs.

Fixpoint psums (acc : Q) (qs : list Q) : list Q :=
  match qs with
  | [] => []
  | q :: qs' => (acc + q)%Q :: psums (acc + q)%Q qs'
  end.

(** ** Text generation from the command line ([keras_model.py],
    lines 196-216) *)

(** [generate_main] once the model is loaded: [seed] is [args.seed], and
    [text] the content of the file at [args.text_path].  The seed selector
    draws from Python's [random], the sampler from [np.random]. *)
Definition generate_main (m : model) (text : list N) (seed : option (list N))
    (length top_n : Z) (s_random s_numpy : random_state) : result (list N) :=
  match seed with
  | None =>
      seed ← (generate_seed text default_seq_lens s_random).1;
      generate_text m seed length top_n s_numpy
  | Some seed => generate_text m seed length top_n s_numpy
  end.

(** A model that gives all the mass to ids 1 and 2. *)
Definition two_ids_model : model :=
  Model unit () (λ h _, (Ok [Fin 0; Fin (1 # 4); Fin (3 # 4)], h)).

(** ** Training data of [train_main] ([keras_model.py], lines 174-186) *)

(** What [train_main] hands to [fit_generator]: [num_batches] as the steps
    per epoch, [num_val_batches] as the validation steps, and the two
    generators. *)
Record training_data : Type := TrainingData {
  steps_per_epoch : Z;
  validation_steps : Z;
  val_generator : batch_gen;
  train_generator : batch_gen
}.

(** Lines 174-186.  [val_split_index] stands for the value of
    [math.floor(len(text) * val_split)], a floating-point product that is
    taken as given here; [x, y = next(train_generator)] advances the
    training generator once before it is handed on. *)
Definition train_main_data (text : list N) (val_split_index : Z)
    (batch_size seq_len : nat) : result training_data :=
  let B := Z.of_nat batch_size in
  let L := Z.of_nat seq_len in
  num_batches ← floordiv (len text - val_split_index - 1) (B * L);
  num_val_batches ← floordiv val_split_index (B * L);
  let val_generator :=
    batch_generator
      (encode_text (slice text (Some 0) (Some val_split_index)) CHAR2ID)
      batch_size seq_len false true in
  let train_generator :=
    batch_generator
      (encode_text (slice text (Some val_split_index) None) CHAR2ID)
      batch_size seq_len false true in
  let first := next_batch train_generator in
  _ ← first.1;
  Ok (TrainingData num_batches num_val_batches val_generator first.2).

(** The ids of two single characters are in the order of their code
    points. *)
Definition code_point_order (k k' : list N) (i i' : Z) : Prop :=
  match k, k' with
  | [ch], [ch'] => (ch < ch')%N ↔ i < i'
  | _, _ => True
  end.

#[global] Instance code_point_order_dec k k' i i' :
  Decision (code_point_order k k' i i').
Proof.
  destruct k as [|ch [|? ?]], k' as [|ch' [|? ?]]; cbn; apply _.
Defined.

(* ================================================================= *)
(** * Properties *)

(** ** The symbol table *)

Example chars_length : length chars = 97%nat.
Proof. reflexivity. Qed.

Example VOCAB_SIZE_value : VOCAB_SIZE = 98.
Proof. vm_compute. reflexivity. Qed.

Example encode_hello :
  encode_text (str "Hi!") CHAR2ID = [43; 76; 4].
Proof. vm_compute. reflexivity. Qed.

Lemma ID2CHAR_unknown : ID2CHAR !! 0 = Some [].
Proof. vm_compute. reflexivity. Qed.

Lemma codec_supported_all :
  Forall (λ ch, (CHAR2ID !! [ch]) ≫= (λ i, ID2CHAR !! i) = Some [ch]) chars.
Proof. apply (bool_decide_unpack _). vm_compute. reflexivity. Qed.

#[global] Opaque CHAR2ID ID2CHAR VOCAB_SIZE.

Lemma codec_supported ch :
  supported ch → ∃ i, CHAR2ID !! [ch] = Some i ∧ ID2CHAR !! i = Some [ch].
Proof.
  intros Hch. pose proof codec_supported_all as Hall.
  rewrite list.Forall_forall in Hall. specialize (Hall ch Hch).
  destruct (CHAR2ID !! [ch]) as [i|] eqn:Hi; [|discriminate].
  exists i. split; [reflexivity|exact Hall].
Qed.

Lemma CHAR2ID_keys : Forall codec_key (map_to_list CHAR2ID).*1.
Proof. apply (bool_decide_unpack _). vm_compute. reflexivity. Qed.

Lemma codec_unsupported ch : ¬ supported ch → CHAR2ID !! [ch] = None.
Proof.
  intros Hch. destruct (CHAR2ID !! [ch]) as [i|] eqn:Hi; [|reflexivity].
  exfalso. apply Hch.
  apply elem_of_map_to_list in Hi.
  pose proof CHAR2ID_keys as Hkeys. rewrite list.Forall_forall in Hkeys.
  apply (Hkeys [ch]). apply list_elem_of_fmap. exists ([ch], i). done.
Qed.

Lemma encode_text_cons ch text d :
  encode_text (ch :: text) d = default 0 (d !! [ch]) :: encode_text text d.
Proof. reflexivity. Qed.

Lemma encode_text_length text d : length (encode_text text d) = length text.
Proof. unfold encode_text. apply length_fmap. Qed.

Lemma decode_encode_filter (s : list N) :
  decode_text (encode_text s CHAR2ID) ID2CHAR = Ok (filter supported s).
Proof.
  induction s as [|ch s IH]; [reflexivity|].
  rewrite encode_text_cons. simpl decode_text.
  destruct (decide (supported ch)) as [Hs|Hs].
  - destruct (codec_supported ch Hs) as (i & Hi & Hc).
    rewrite Hi. simpl. rewrite Hc, IH. simpl.
    rewrite filter_cons_True by done. reflexivity.
  - rewrite (codec_unsupported ch Hs). simpl. rewrite ID2CHAR_unknown, IH.
    simpl. rewrite filter_cons_False by done. reflexivity.
Qed.

(** ** The generators and the sampler on small inputs *)

(** Thirteen tokens, three rows, two time steps: two batches per epoch
    over the grid [[10..13]; [14..17]; [18..21]]. *)
Example batch_generator_first :
  nth_batch 0 (batch_generator [10;11;12;13;14;15;16;17;18;19;20;21;22]
                 3 2 false false)
  = Ok (Array2 3 2 [[Id 10; Id 11]; [Id 14; Id 15]; [Id 18; Id 19]],
        Array2 3 2 [[Id 11; Id 12]; [Id 15; Id 16]; [Id 19; Id 20]]).
Proof. vm_compute. reflexivity. Qed.

(** The first batch of the second epoch: the rows moved up by one. *)
Example batch_generator_rolled :
  nth_batch 2 (batch_generator [10;11;12;13;14;15;16;17;18;19;20;21;22]
                 3 2 false false)
  = Ok (Array2 3 2 [[Id 14; Id 15]; [Id 18; Id 19]; [Id 10; Id 11]],
        Array2 3 2 [[Id 15; Id 16]; [Id 19; Id 20]; [Id 11; Id 12]]).
Proof. vm_compute. reflexivity. Qed.

Example batch_generator_zero_size :
  nth_batch 0 (batch_generator [1; 2; 3] 0 4 false false)
  = Raise ZeroDivisionError.
Proof. vm_compute. reflexivity. Qed.

(** A file of 22 bytes read 8 bytes at a time: two chunks per pass, the
    last 6 bytes are never read. *)
Example io_batch_generator_second_chunk :
  nth_io_batch 1 (io_batch_generator (str "abcdefghijklmnopqrstuv")
                    8 2 2 false false)
  = Ok (amap Id (Array2 2 2 [[76; 77]; [78; 79]]),
        amap Id (Array2 2 2 [[77; 78]; [79; 80]]), 1).
Proof. vm_compute. reflexivity. Qed.

Example io_batch_generator_second_pass :
  nth_io_batch 2 (io_batch_generator (str "abcdefghijklmnopqrstuv")
                    8 2 2 false false)
  = Ok (amap Id (Array2 2 2 [[68; 69]; [70; 71]]),
        amap Id (Array2 2 2 [[69; 70]; [71; 72]]), 2).
Proof. vm_compute. reflexivity. Qed.

Example io_batch_generator_small_chunk :
  nth_io_batch 0 (io_batch_generator (str "abcdefghijklmnopqrstuv")
                    8 2 4 false false)
  = Raise ValueError.
Proof. vm_compute. reflexivity. Qed.

(** [top_n = 0] truncates nothing: [[:-0]] is the empty slice. *)
Example truncate_probs_top_0 :
  truncate_probs [Fin (1 # 4); Fin (1 # 2); Fin (1 # 4)] 0
  = [Fin (1 # 4); Fin (1 # 2); Fin (1 # 4)].
Proof. vm_compute. reflexivity. Qed.

Example truncate_probs_top_2 :
  truncate_probs [Fin (1 # 8); Fin (1 # 2); Fin (3 # 8)] 2
  = [Fin 0; Fin (1 # 2); Fin (3 # 8)].
Proof. vm_compute. reflexivity. Qed.

Example generate_seed_second_candidate :
  (generate_seed (str "abcdefghij") default_seq_lens (λ _, 1%N)).1
  = Ok (str "bcde").
Proof. vm_compute. reflexivity. Qed.

(* ================================================================= *)
(** ** The result monad and Python slices *)

Lemma bind_Ok {A B} (f : A → result B) (a : A) : (Ok a ≫= f) = f a.
Proof. reflexivity. Qed.

Lemma floordiv_Ok a b : b ≠ 0 → floordiv a b = Ok (a `div` b).
Proof. intros Hb. unfold floordiv. rewrite decide_False by done. reflexivity. Qed.

Lemma len_nonneg {A} (l : list A) : 0 <= len l.
Proof. unfold len. lia. Qed.

(** [l[:j]] for [0 <= j]: the first [j] elements. *)
Lemma slice_prefix {A} (l : list A) (j : Z) :
  0 <= j → slice l None (Some j) = take (Z.to_nat j) l.
Proof.
  intros Hj. unfold slice, slice_bound, len. simpl.
  rewrite decide_False by lia. rewrite Z.sub_0_r.
  change (Z.to_nat 0) with 0%nat. rewrite drop_0.
  destruct (decide (j <= Z.of_nat (length l))).
  - rewrite Z.min_l by lia. reflexivity.
  - rewrite Z.min_r by lia. rewrite Nat2Z.id.
    rewrite !take_ge by lia. reflexivity.
Qed.

(** [l[1:j]] for [1 <= j]: the elements [1 .. j-1]. *)
Lemma slice_from_1 {A} (l : list A) (j : Z) :
  1 <= j → slice l (Some 1) (Some j) = take (Z.to_nat (j - 1)) (drop 1 l).
Proof.
  intros Hj. unfold slice, slice_bound, len. simpl.
  rewrite !decide_False by lia.
  destruct (decide (length l = 0%nat)) as [H0|H0].
  { destruct l; [|done]. simpl. by rewrite !take_nil. }
  rewrite (Z.min_l 1) by lia. change (Z.to_nat 1) with 1%nat.
  destruct (decide (j <= Z.of_nat (length l))).
  - rewrite Z.min_l by lia. reflexivity.
  - rewrite Z.min_r by lia.
    rewrite !take_ge; [done| |]; rewrite length_drop; lia.
Qed.

(* ================================================================= *)
(** ** Arrays *)

Section arrays.
Context {A : Type}.
Implicit Types (a : array2 A) (l : list A).

Lemma item_Some a b t v :
  item a b t = Some v ↔ ∃ row, rows a !! b = Some row ∧ row !! t = Some v.
Proof.
  unfold item. destruct (rows a !! b) as [row|]; simpl.
  - split; [eauto|]. intros (row' & [= <-] & Hv). exact Hv.
  - split; [done|]. intros (row' & [=] & _).
Qed.

Lemma np_reshape_Ok l (r c : nat) :
  length l = (r * c)%nat →
  np_reshape l (Z.of_nat r) (Z.of_nat c) =
    Ok (Array2 r c ((λ i, take c (drop (i * c) l)) <$> seq 0 r)).
Proof.
  intros Hl. unfold np_reshape, len.
  rewrite decide_True by lia. by rewrite !Nat2Z.id.
Qed.

Lemma item_reshape l (r c b t : nat) :
  (b < r)%nat → (t < c)%nat →
  item (Array2 r c ((λ i, take c (drop (i * c) l)) <$> seq 0 r)) b t
  = l !! (b * c + t)%nat.
Proof.
  intros Hb Ht. unfold item. simpl.
  rewrite list_lookup_fmap, lookup_seq_lt by done. simpl.
  rewrite lookup_take_lt by done. by rewrite lookup_drop.
Qed.

Lemma item_columns a (w k b t : nat) :
  (t < w)%nat → item (columns a w k) b t = item a b (k * w + t).
Proof.
  intros Ht. unfold item, columns. simpl. rewrite list_lookup_fmap.
  destruct (rows a !! b) as [row|]; [simpl|done].
  rewrite lookup_take_lt by done. by rewrite lookup_drop.
Qed.

Lemma rows_roll a (e b : nat) :
  length (rows a) = nrows a → (b < nrows a)%nat →
  rows (np_roll a (- Z.of_nat e)) !! b = rows a !! ((b + e) `mod` nrows a)%nat.
Proof.
  intros Hrows Hb. unfold np_roll. simpl.
  rewrite lookup_rotate_r by lia. f_equal.
  unfold rotate_nat_add. rewrite Hrows, Z.opp_involutive.
  rewrite Z2Nat.id by (apply Z.mod_pos_bound; lia).
  rewrite Zplus_mod_idemp_l, <- Nat2Z.inj_add, <- Nat2Z.inj_mod, Nat2Z.id.
  f_equal. lia.
Qed.

Lemma item_roll a (e b t : nat) :
  length (rows a) = nrows a → (b < nrows a)%nat →
  item (np_roll a (- Z.of_nat e)) b t = item a ((b + e) `mod` nrows a) t.
Proof.
  intros Hrows Hb. unfold item, np_roll. simpl.
  rewrite lookup_rotate_r by lia. f_equal. f_equal.
  unfold rotate_nat_add. rewrite Hrows, Z.opp_involutive.
  rewrite Z2Nat.id by (apply Z.mod_pos_bound; lia).
  rewrite Zplus_mod_idemp_l, <- Nat2Z.inj_add, <- Nat2Z.inj_mod, Nat2Z.id.
  f_equal. lia.
Qed.

Lemma np_split_Ok a (w s : nat) :
  ncols a = (s * w)%nat → (0 < s)%nat →
  np_split a (Z.of_nat s) =
    Ok (columns a w 0, columns a w <$> seq 1 (s - 1)).
Proof.
  intros Hc Hs. unfold np_split, pymod.
  destruct (decide (Z.of_nat s = 0)) as [?|_]; [lia|]. rewrite bind_Ok.
  assert (Z.of_nat (ncols a) = Z.of_nat w * Z.of_nat s) as -> by lia.
  rewrite Z.mod_mul, Z.div_mul by lia.
  destruct (decide (0 ≠ 0)) as [?|_]; [done|].
  destruct (decide (Z.of_nat s <= 0)) as [?|_]; [lia|].
  rewrite !Nat2Z.id. reflexivity.
Qed.
End arrays.

Lemma item_amap {A B} (f : A → B) (a : array2 A) b t :
  item (amap f a) b t = f <$> item a b t.
Proof.
  unfold item, amap. simpl. rewrite list_lookup_fmap.
  destruct (rows a !! b) as [row|]; [simpl|done]. by rewrite list_lookup_fmap.
Qed.

Lemma zip_fmap_same {A B C} (f : A → B) (g : A → C) (l : list A) :
  zip (f <$> l) (g <$> l) = (λ a, (f a, g a)) <$> l.
Proof. induction l as [|a l IH]; [done|]. simpl. f_equal. exact IH. Qed.

Lemma mapM_Ok {A B} (f : A → result B) (g : A → B) (l : list A) :
  Forall (λ a, f a = Ok (g a)) l → mapM f l = Ok (g <$> l).
Proof.
  induction 1 as [|a l Ha _ IH]; [done|]. simpl. rewrite Ha, bind_Ok, IH.
  reflexivity.
Qed.

Lemma eye_getitem_Ok i :
  valid_id i →
  eye_getitem VOCAB_SIZE i =
    Ok (eye_row (Z.to_nat VOCAB_SIZE) (Z.to_nat (i `mod` VOCAB_SIZE))).
Proof. intros Hi. unfold eye_getitem. by rewrite decide_True. Qed.

Lemma encode_cells_Ok (one_hot : bool) (a : array2 Z) :
  (one_hot = true → Forall (Forall valid_id) (rows a)) →
  encode_cells one_hot a = Ok (amap (cell_of one_hot) a).
Proof.
  intros Hvalid. destruct one_hot; [|done].
  unfold encode_cells, one_hot_encode.
  rewrite (mapM_Ok _ (λ row, cell_of true <$> row)); [done|].
  eapply list.Forall_impl; [exact (Hvalid eq_refl)|]. intros row Hrow.
  simpl in Hrow.
  apply mapM_Ok. eapply list.Forall_impl; [exact Hrow|]. intros i Hi. simpl.
  by rewrite eye_getitem_Ok.
Qed.

Lemma eye_row_lookup n k j :
  (j < n)%nat →
  eye_row n k !! j = Some (if decide (j = k) then Fin 1 else Fin 0).
Proof.
  intros Hj. unfold eye_row. by rewrite list_lookup_fmap, lookup_seq_lt.
Qed.

(** Distinct ids in [0 .. VOCAB_SIZE - 1] have distinct cells. *)
Lemma cell_of_inj one_hot v w :
  0 <= v < VOCAB_SIZE → 0 <= w < VOCAB_SIZE →
  cell_of one_hot v = cell_of one_hot w → v = w.
Proof.
  intros Hv Hw. unfold cell_of. destruct one_hot; [|congruence].
  rewrite !Z.mod_small by done.
  assert (Z.to_nat v < Z.to_nat VOCAB_SIZE)%nat as Hlt by lia.
  pose proof (eye_row_lookup _ (Z.to_nat v) _ Hlt) as Hv1.
  pose proof (eye_row_lookup _ (Z.to_nat w) _ Hlt) as Hw1.
  generalize dependent (eye_row (Z.to_nat VOCAB_SIZE) (Z.to_nat v)).
  generalize dependent (eye_row (Z.to_nat VOCAB_SIZE) (Z.to_nat w)).
  intros rw Hw1 rv Hv1 [= ->]. rewrite Hw1 in Hv1.
  destruct (decide (Z.to_nat v = Z.to_nat w)) as [Hvw|]; [lia|].
  rewrite decide_True in Hv1 by done. by injection Hv1.
Qed.

Lemma grid_rows_length one_hot l r c : length (rows (grid one_hot l r c)) = r.
Proof. unfold grid, amap. simpl. by rewrite !length_fmap, length_seq. Qed.

Lemma grid_row one_hot l (r c b : nat) :
  (b < r)%nat →
  rows (grid one_hot l r c) !! b
  = Some (cell_of one_hot <$> take c (drop (b * c) l)).
Proof.
  intros Hb. unfold grid, amap. simpl.
  rewrite !list_lookup_fmap, lookup_seq_lt by done. reflexivity.
Qed.

(** Cutting [n] pieces of [w] tokens from position [s] on and joining them
    gives the [n * w] tokens from [s] on. *)
Lemma concat_pieces {A} (l : list A) (w n s : nat) :
  concat ((λ k, take w (drop (s + k * w) l)) <$> seq 0 n)
  = take (n * w) (drop s l).
Proof.
  revert s. induction n as [|n IH]; intros s; [done|].
  rewrite <- cons_seq, <- fmap_S_seq, fmap_cons, <- list_fmap_compose.
  cbn [concat]. rewrite Nat.mul_0_l, Nat.add_0_r.
  replace ((λ k, take w (drop (s + k * w) l)) ∘ S <$> seq 0 n)
    with ((λ k, take w (drop ((s + w) + k * w) l)) <$> seq 0 n).
  2:{ apply list_fmap_ext. intros i k _. simpl. f_equal. f_equal. lia. }
  rewrite IH, <- drop_drop, take_take_drop. reflexivity.
Qed.

Lemma Forall_rows_reshape {A} (P : A → Prop) (l : list A) (r c : nat) :
  Forall P l → Forall (Forall P) ((λ i, take c (drop (i * c) l)) <$> seq 0 r).
Proof.
  intros Hl. apply Forall_fmap, Forall_true. intros i. simpl.
  by apply Forall_take, Forall_drop.
Qed.

(* ================================================================= *)
(** ** The in-memory generator *)

Lemma after_batches_S n g :
  after_batches (S n) g = (next_batch (after_batches n g)).2.
Proof. revert g. induction n as [|n IH]; intros g; [done|]. simpl. apply IH. Qed.

Lemma mapM_inv {A B} (f : A → result B) (g : A → B) (l : list A) l' :
  (∀ a b, f a = Ok b → b = g a) → mapM f l = Ok l' → l' = g <$> l.
Proof.
  intros Hf. revert l'. induction l as [|a l IH]; intros l'; simpl.
  - by intros [= <-].
  - destruct (f a) as [b|] eqn:Hb; [|done]. rewrite bind_Ok.
    destruct (mapM f l) as [bs|]; [|done]. rewrite bind_Ok.
    intros [= <-]. by rewrite (Hf a b Hb), (IH bs).
Qed.

(** When [encode_cells] returns, it returns the cells of the ids. *)
Lemma encode_cells_inv (one_hot : bool) (a : array2 Z) a' :
  encode_cells one_hot a = Ok a' → a' = amap (cell_of one_hot) a.
Proof.
  destruct one_hot; [|by intros [= <-]].
  unfold encode_cells, one_hot_encode.
  destruct (mapM _ (rows a)) as [rs|] eqn:Hrs; [|done]. rewrite bind_Ok.
  intros [= <-]. unfold amap. f_equal.
  apply (mapM_inv _ (λ row : list Z, cell_of true <$> row) _ _) in Hrs; [done|].
  intros row cells. apply mapM_inv. intros i c. unfold eye_getitem.
  destruct (decide _); [|done]. rewrite bind_Ok. by intros [= <-].
Qed.

(** The set-up returns only for positive sizes and a sequence longer than
    one batch. *)
Lemma batch_setup_sizes sequence batch_size seq_len ohf ohl s :
  batch_setup sequence batch_size seq_len ohf ohl = Ok s →
  (0 < batch_size)%nat ∧ (0 < seq_len)%nat ∧
  (batch_size * seq_len < length sequence)%nat.
Proof.
  unfold batch_setup, floordiv, len.
  destruct (decide (Z.of_nat batch_size * Z.of_nat seq_len = 0)); [done|].
  rewrite bind_Ok. destruct (decide (_ = 0)) as [|Hnb]; [done|].
  destruct (np_reshape (slice sequence None _) _ _) as [x0|] eqn:Hx;
    [|discriminate].
  intros _. unfold np_reshape in Hx.
  destruct (decide _) as [(_ & Hcols & _)|]; [|done].
  set (d := Z.of_nat batch_size * Z.of_nat seq_len) in *.
  assert (0 < d) as Hd by lia.
  pose proof (Z.div_mod (Z.of_nat (length sequence) - 1) d).
  pose proof (Z.mod_pos_bound (Z.of_nat (length sequence) - 1) d Hd).
  nia.
Qed.

Section in_memory_setup.
Context (sequence : list Z) (batch_size seq_len : nat).
Context (one_hot_features one_hot_labels : bool).
Hypothesis batch_size_pos : (0 < batch_size)%nat.
Hypothesis seq_len_pos : (0 < seq_len)%nat.
Hypothesis enough_data : (batch_size * seq_len < length sequence)%nat.

Let N : nat := batches_per_epoch (length sequence) batch_size seq_len.
Let cols : nat := (N * seq_len)%nat.
Let rounded_len : nat := (batch_size * cols)%nat.
Let x_full : array2 cell :=
  x_grid one_hot_features sequence batch_size seq_len.
Let y_full : array2 cell :=
  y_grid one_hot_labels sequence batch_size seq_len.

Lemma num_batches_pos : (0 < N)%nat.
Proof.
  subst N. unfold batches_per_epoch.
  apply Nat.div_str_pos. lia.
Qed.

Lemma rounded_len_fits : (rounded_len < length sequence)%nat.
Proof.
  subst rounded_len cols N. unfold batches_per_epoch.
  pose proof (Nat.Div0.mul_div_le (length sequence - 1) (batch_size * seq_len)).
  nia.
Qed.

Lemma num_batches_Z :
  (len sequence - 1) `div` (Z.of_nat batch_size * Z.of_nat seq_len)
  = Z.of_nat N.
Proof.
  subst N. unfold batches_per_epoch, len.
  rewrite Nat2Z.inj_div, Nat2Z.inj_sub, Nat2Z.inj_mul by lia. reflexivity.
Qed.

(** The set-up up to the one-hot encodings. *)
Lemma batch_setup_steps :
  batch_setup sequence batch_size seq_len one_hot_features one_hot_labels
  = (x ← encode_cells one_hot_features
           (Array2 batch_size cols
              ((λ i, take cols (drop (i * cols) (take rounded_len sequence)))
                 <$> seq 0 batch_size));
     y ← encode_cells one_hot_labels
           (Array2 batch_size cols
              ((λ i, take cols
                       (drop (i * cols) (take rounded_len (drop 1 sequence))))
                 <$> seq 0 batch_size));
     Ok (Z.of_nat N, x, y)).
Proof.
  pose proof num_batches_pos. pose proof rounded_len_fits as Hfit.
  unfold batch_setup. rewrite floordiv_Ok by lia. rewrite bind_Ok.
  rewrite num_batches_Z. rewrite decide_False by lia.
  assert (Z.of_nat N * Z.of_nat batch_size * Z.of_nat seq_len
          = Z.of_nat rounded_len) as -> by (subst rounded_len cols; lia).
  assert (Z.of_nat N * Z.of_nat seq_len = Z.of_nat cols) as ->
    by (subst cols; lia).
  rewrite slice_prefix, slice_from_1 by lia.
  replace (Z.to_nat (Z.of_nat rounded_len + 1 - 1)) with rounded_len by lia.
  rewrite Nat2Z.id.
  rewrite !np_reshape_Ok
    by (rewrite ?length_take, ?length_drop; subst rounded_len; lia).
  rewrite bind_Ok.
  destruct (encode_cells one_hot_features _) as [x0|]; [|reflexivity].
  rewrite !bind_Ok. reflexivity.
Qed.

(** With ids that [np.eye] accepts wherever a one-hot encoding is asked
    for, the set-up returns the two grids. *)
Lemma batch_setup_Ok :
  (one_hot_features || one_hot_labels = true → Forall valid_id sequence) →
  batch_setup sequence batch_size seq_len one_hot_features one_hot_labels
  = Ok (Z.of_nat N, x_full, y_full).
Proof.
  intros ids_valid. rewrite batch_setup_steps.
  assert (∀ l, Forall valid_id l →
    Forall (Forall valid_id)
      ((λ i, take cols (drop (i * cols) l)) <$> seq 0 batch_size)) as Hrows
    by (intros l Hl; by apply Forall_rows_reshape).
  rewrite !encode_cells_Ok; [reflexivity|..];
    intros Hf; apply Hrows, Forall_take; try apply Forall_drop;
    apply ids_valid; rewrite Hf; (done || apply orb_true_r).
Qed.

(** Whenever the set-up returns, it returns the two grids. *)
Lemma batch_setup_inv s :
  batch_setup sequence batch_size seq_len one_hot_features one_hot_labels
  = Ok s →
  s = (Z.of_nat N, x_full, y_full).
Proof.
  rewrite batch_setup_steps.
  destruct (encode_cells one_hot_features _) as [x0|] eqn:Hx; [|done].
  rewrite bind_Ok.
  destruct (encode_cells one_hot_labels _) as [y0|] eqn:Hy; [|done].
  rewrite bind_Ok. intros [= <-].
  by rewrite (encode_cells_inv _ _ _ Hx), (encode_cells_inv _ _ _ Hy).
Qed.
End in_memory_setup.

Section in_memory.
Context (sequence : list Z) (batch_size seq_len : nat).
Context (one_hot_features one_hot_labels : bool).
Hypothesis batch_size_pos : (0 < batch_size)%nat.
Hypothesis seq_len_pos : (0 < seq_len)%nat.
Hypothesis enough_data : (batch_size * seq_len < length sequence)%nat.

Let N : nat := batches_per_epoch (length sequence) batch_size seq_len.
Let cols : nat := (N * seq_len)%nat.
Let rounded_len : nat := (batch_size * cols)%nat.
Let x_full : array2 cell :=
  x_grid one_hot_features sequence batch_size seq_len.
Let y_full : array2 cell :=
  y_grid one_hot_labels sequence batch_size seq_len.
Let g : batch_gen :=
  batch_generator sequence batch_size seq_len one_hot_features one_hot_labels.

Hypothesis setup_returns :
  batch_setup sequence batch_size seq_len one_hot_features one_hot_labels
  = Ok (Z.of_nat N, x_full, y_full).

(** The frame while the generator is suspended at batch [k] of epoch [e]. *)
Let frame_at (e k : nat) : batch_frame :=
  BatchFrame (Z.of_nat N) x_full y_full (Z.of_nat e)
    (batch_at x_full y_full seq_len e <$> seq (S k) (N - S k)).

Lemma begin_epoch_Ok e :
  begin_epoch (Z.of_nat N) x_full y_full (Z.of_nat e)
  = Ok (batch_at x_full y_full seq_len e 0, frame_at e 0).
Proof.
  pose proof (num_batches_pos _ _ _ batch_size_pos seq_len_pos enough_data).
  unfold begin_epoch.
  rewrite !(np_split_Ok _ seq_len N) by (done || lia).
  rewrite !bind_Ok. simpl. rewrite zip_fmap_same.
  reflexivity.
Qed.

(** Call number [e * N + k] returns batch [k] of epoch [e] and leaves the
    generator suspended there. *)
Lemma generator_run n :
  ∀ e k, n = (e * N + k)%nat → (k < N)%nat →
    next_batch (after_batches n g)
    = (Ok (batch_at x_full y_full seq_len e k), Suspended (frame_at e k)).
Proof.
  induction n as [|n IH]; intros e k Hn Hk.
  - assert (e = 0 ∧ k = 0)%nat as [-> ->] by nia.
    simpl. unfold g, batch_generator. simpl.
    rewrite setup_returns, bind_Ok. cbn [fst snd].
    pose proof (begin_epoch_Ok 0) as H0. change (Z.of_nat 0) with 0 in H0.
    rewrite H0. done.
  - rewrite after_batches_S.
    destruct k as [|k].
    + destruct e as [|e]; [lia|].
      rewrite (IH e (N - 1)%nat) by (nia || lia).
      unfold frame_at. simpl.
      replace (N - S (N - 1))%nat with 0%nat by lia. simpl.
      replace (Z.of_nat e + 1) with (Z.of_nat (S e)) by lia.
      rewrite begin_epoch_Ok. done.
    + rewrite (IH e k) by lia.
      unfold frame_at. simpl.
      replace (N - S k)%nat with (S (N - S (S k))) by lia. simpl. done.
Qed.

Lemma nth_batch_eq e k :
  (k < N)%nat →
  nth_batch (e * N + k) g = Ok (batch_at x_full y_full seq_len e k).
Proof.
  intros Hk. unfold nth_batch. by rewrite (generator_run _ e k).
Qed.

Lemma x_grid_item b j :
  (b < batch_size)%nat → (j < cols)%nat →
  item x_full b j = cell_of one_hot_features <$> sequence !! (b * cols + j)%nat.
Proof.
  intros Hb Hj. unfold x_full, x_grid, grid. fold N. fold cols.
  rewrite item_amap, item_reshape by done.
  rewrite lookup_take_lt by nia. reflexivity.
Qed.

Lemma y_grid_item b j :
  (b < batch_size)%nat → (j < cols)%nat →
  item y_full b j
  = cell_of one_hot_labels <$> sequence !! S (b * cols + j)%nat.
Proof.
  intros Hb Hj. unfold y_full, y_grid, grid. fold N. fold cols.
  rewrite item_amap, item_reshape by done.
  rewrite lookup_take_lt by nia. rewrite lookup_drop. reflexivity.
Qed.

Lemma grid_position_fits b j :
  (b < batch_size)%nat → (j < cols)%nat →
  (S (b * cols + j) < length sequence)%nat.
Proof.
  intros Hb Hj.
  pose proof (rounded_len_fits _ _ _ batch_size_pos seq_len_pos enough_data)
    as Hfit.
  unfold rounded_len in Hfit. nia.
Qed.

(** The cells of batch [k] of epoch [e]. *)
Lemma batch_at_item e k b t :
  (k < N)%nat → (b < batch_size)%nat → (t < seq_len)%nat →
  let p := token_position batch_size seq_len cols e k b t in
  (S p < length sequence)%nat ∧
  item (batch_at x_full y_full seq_len e k).1 b t
    = cell_of one_hot_features <$> sequence !! p ∧
  item (batch_at x_full y_full seq_len e k).2 b t
    = cell_of one_hot_labels <$> sequence !! S p.
Proof.
  intros Hk Hb Ht p.
  assert ((b + e) `mod` batch_size < batch_size)%nat as Hrow
    by (apply Nat.mod_upper_bound; lia).
  assert (k * seq_len + t < cols)%nat as Hcol by (unfold cols; nia).
  unfold batch_at. cbn [fst snd].
  rewrite !item_columns by done.
  rewrite !item_roll by (done || apply grid_rows_length).
  change (nrows x_full) with batch_size.
  change (nrows y_full) with batch_size.
  rewrite x_grid_item, y_grid_item by done.
  unfold p, token_position. rewrite <- !Nat.add_assoc.
  split; [|done]. by apply grid_position_fits.
Qed.

(** Row [b] of batch [k] of epoch [e]: [seq_len] tokens of grid row
    [(b + e) mod batch_size], from column [k * seq_len] on. *)
Lemma batch_at_rows e k b :
  (k < N)%nat → (b < batch_size)%nat →
  let start := (((b + e) `mod` batch_size) * cols + k * seq_len)%nat in
  rows (batch_at x_full y_full seq_len e k).1 !! b
    = Some (lane_slice one_hot_features sequence start seq_len) ∧
  rows (batch_at x_full y_full seq_len e k).2 !! b
    = Some (lane_slice one_hot_labels sequence (S start) seq_len).
Proof.
  intros Hk Hb start.
  assert ((b + e) `mod` batch_size < batch_size)%nat as Hrow
    by (apply Nat.mod_upper_bound; lia).
  pose proof (rounded_len_fits _ _ _ batch_size_pos seq_len_pos enough_data)
    as Hfit. unfold rounded_len in Hfit.
  assert (k * seq_len + seq_len <= cols)%nat as Hcol by (unfold cols; nia).
  unfold batch_at, columns, lane_slice. cbn [fst snd rows].
  rewrite !list_lookup_fmap.
  rewrite !rows_roll by (done || apply grid_rows_length).
  change (nrows x_full) with batch_size.
  change (nrows y_full) with batch_size.
  unfold x_full, y_full, x_grid, y_grid. fold N. fold cols.
  rewrite !grid_row by done. cbn [fmap option_fmap option_map].
  rewrite <- !fmap_drop, <- !fmap_take.
  split; do 2 f_equal; apply list_eq; intros i;
    (destruct (decide (i < seq_len)%nat);
     [ rewrite !lookup_take_lt, !lookup_drop by lia;
       rewrite !lookup_take_lt, !lookup_drop by lia;
       rewrite ?lookup_take_lt, ?lookup_drop by nia;
       f_equal; unfold start; lia
     | by rewrite !lookup_take_ge by lia ]).
Qed.
End in_memory.

(* ================================================================= *)
(** ** The streaming generator *)





Section streaming.
Context (text : list N) (max_bytes batch_size seq_len : nat).
Context (one_hot_features one_hot_labels : bool).
Hypothesis batch_size_pos : (0 < batch_size)%nat.
Hypothesis seq_len_pos : (0 < seq_len)%nat.
Hypothesis max_bytes_pos : (0 < max_bytes)%nat.
Hypothesis chunk_enough :
  (batch_size * seq_len < chunk_size (length text) max_bytes)%nat.

Let args : io_args :=
  IoArgs text max_bytes batch_size seq_len one_hot_features one_hot_labels.
Let g : io_gen :=
  io_batch_generator text max_bytes batch_size seq_len
    one_hot_features one_hot_labels.
(** The length of a chunk, the chunks per pass and the batches per chunk. *)
Let size : nat := chunk_size (length text) max_bytes.
Let P : nat := chunks_per_pass (length text) max_bytes.
Let N : nat := batches_per_epoch size batch_size seq_len.













End streaming.

(* ================================================================= *)
(** * The codec round trip *)

Lemma filter_supported_all (s : list N) :
  Forall supported s → filter supported s = s.
Proof.
  induction 1 as [|ch s Hch _ IH]; [done|].
  rewrite filter_cons_True by done. by rewrite IH.
Qed.

(** C7.  [encode_text] is total: it returns one id per character, and the
    id is 0 for a character that has no entry in the table.  For a string
    made of supported characters only, decoding the encoding gives the
    string back. *)
Theorem decode_encode_roundtrip (s : list N) :
  (length (encode_text s CHAR2ID) = length s ∧
   ∀ i ch, s !! i = Some ch → ¬ supported ch →
     encode_text s CHAR2ID !! i = Some 0) ∧
  (Forall supported s →
   decode_text (encode_text s CHAR2ID) ID2CHAR = Ok s).
Proof.
  split; [split|].
  - apply encode_text_length.
  - intros i ch Hi Hch. unfold encode_text.
    rewrite list_lookup_fmap, Hi. simpl.
    by rewrite (codec_unsupported ch Hch).
  - intros Hs. rewrite decode_encode_filter.
    by rewrite filter_supported_all.
Qed.

Lemma decode_encode_roundtrip_witness :
  Forall supported (str "To be, or not to be?") ∧
  decode_text (encode_text (str "To be, or not to be?") CHAR2ID) ID2CHAR
  = Ok (str "To be, or not to be?").
Proof.
  assert (Forall supported (str "To be, or not to be?")) as Hs
    by (apply (bool_decide_unpack _); vm_compute; reflexivity).
  split; [exact Hs|].
  exact (proj2 (decode_encode_roundtrip (str "To be, or not to be?")) Hs).
Defined.

(** C10.  For every string, decoding the encoding gives the string with
    every unsupported character deleted: an unsupported character is
    encoded as 0, and 0 is decoded as the empty string. *)
Theorem decode_encode_drops_unsupported (s : list N) :
  decode_text (encode_text s CHAR2ID) ID2CHAR = Ok (filter supported s) ∧
  (∀ ch, ¬ supported ch → encode_text [ch] CHAR2ID = [0]) ∧
  decode_text [0] ID2CHAR = Ok [].
Proof.
  split; [apply decode_encode_filter|split].
  - intros ch Hch. unfold encode_text. simpl.
    by rewrite (codec_unsupported ch Hch).
  - simpl. by rewrite ID2CHAR_unknown.
Qed.

Lemma decode_encode_drops_unsupported_witness :
  ¬ supported 233%N ∧ encode_text [233%N] CHAR2ID = [0] ∧
  decode_text (encode_text (str "caf" ++ [233%N] ++ str "!") CHAR2ID) ID2CHAR
  = Ok (str "caf!").
Proof.
  assert (¬ supported 233%N) as Hch
    by (apply (bool_decide_unpack _); vm_compute; reflexivity).
  split; [exact Hch|]. split.
  - exact (proj1 (proj2 (decode_encode_drops_unsupported [])) 233%N Hch).
  - exact (proj1 (decode_encode_drops_unsupported
                    (str "caf" ++ [233%N] ++ str "!"))).
Defined.

(* ================================================================= *)
(** * Too little data for one batch *)

Lemma after_batches_Finished n : after_batches n Finished = Finished.
Proof. induction n as [|n IH]; [done|]. simpl. exact IH. Qed.

Lemma batch_setup_no_batches sequence batch_size seq_len ohf ohl :
  floordiv (len sequence - 1) (Z.of_nat batch_size * Z.of_nat seq_len) = Ok 0 →
  batch_setup sequence batch_size seq_len ohf ohl = Raise ValueError.
Proof.
  intros Hzero. unfold batch_setup. rewrite Hzero, bind_Ok.
  by rewrite decide_True.
Qed.

(** A generator whose set-up raises passes the exception on at the first
    call of [next] and never returns a batch. *)
Lemma batch_setup_raises sequence batch_size seq_len ohf ohl e :
  batch_setup sequence batch_size seq_len ohf ohl = Raise e →
  let g := batch_generator sequence batch_size seq_len ohf ohl in
  next_batch g = (Raise e, Finished) ∧ ∀ n, ∃ e', nth_batch n g = Raise e'.
Proof.
  intros Hsetup g.
  assert (next_batch g = (Raise e, Finished)) as Hnext.
  { unfold g, batch_generator. simpl. by rewrite Hsetup. }
  split; [exact Hnext|].
  intros [|n]; unfold nth_batch.
  - exists e. cbn [after_batches]. by rewrite Hnext.
  - exists StopIteration. cbn [after_batches]. rewrite Hnext. cbn [snd].
    by rewrite after_batches_Finished.
Qed.



(* ================================================================= *)
(** * The shift invariant *)

Lemma div_mod_position (n N : nat) :
  (0 < N)%nat → n = ((n `div` N) * N + n `mod` N)%nat ∧ (n `mod` N < N)%nat.
Proof.
  intros HN. split; [|apply Nat.mod_upper_bound; lia].
  pose proof (Nat.div_mod_eq n N). lia.
Qed.


Lemma batch_shift_invariant sequence batch_size seq_len ohf ohl n b :
  nth_batch n (batch_generator sequence batch_size seq_len ohf ohl) = Ok b →
  shift_invariant sequence
    (lane_start (length sequence) batch_size seq_len n)
    batch_size seq_len ohf ohl b.
Proof.
  intros Hb.
  destruct (batch_setup sequence batch_size seq_len ohf ohl) as [s|e]
    eqn:Hsetup.
  2:{ destruct (batch_setup_raises _ _ _ _ _ _ Hsetup) as [_ Hnone].
      destruct (Hnone n) as [e' He']. congruence. }
  destruct (batch_setup_sizes _ _ _ _ _ _ Hsetup) as (HB & HL & Hdata).
  pose proof (batch_setup_inv _ _ _ ohf ohl HB HL Hdata _ Hsetup) as ->.
  pose proof (num_batches_pos sequence batch_size seq_len HB HL Hdata) as HN.
  destruct (div_mod_position n _ HN) as [Hn Hk].
  rewrite Hn in Hb at 1. rewrite nth_batch_eq in Hb by done.
  injection Hb as <-.
  intros r t Hr Ht.
  destruct (batch_at_item sequence batch_size seq_len ohf ohl HB HL Hdata
              (n `div` batches_per_epoch (length sequence) batch_size seq_len)
              _ r t Hk Hr Ht) as (Hfit & Hx & Hy).
  unfold lane_start. cbv zeta.
  unfold token_position in *. rewrite Nat.add_0_r.
  set (p := (_ + t)%nat) in *.
  destruct (lookup_lt_is_Some_2 sequence p) as [v Hv]; [lia|].
  destruct (lookup_lt_is_Some_2 sequence (S p)) as [w Hw]; [lia|].
  exists v, w. rewrite Hx, Hy, Hv, Hw. done.
Qed.







(* ================================================================= *)
(** * Lane continuity of the in-memory generator *)

Lemma mod_succ_shift (b e B : nat) :
  (0 < B)%nat → ((S b `mod` B + e) `mod` B = (b + S e) `mod` B)%nat.
Proof.
  intros HB. rewrite Nat.Div0.add_mod_idemp_l. f_equal. lia.
Qed.

(** C2, amended.  On epoch [e] output row [b] is grid row
    [(b + e) mod batch_size], for inputs and targets alike.  Hence (1) the
    slices of output row [b] over the batches of one epoch, joined, are
    the [N * seq_len] contiguous tokens of that grid row, inside the
    rounded sequence; (2) output row [b] of epoch [e + 1] is the lane that
    was output row [(b + 1) mod batch_size] on epoch [e]; and (3) unless
    the lane of row [b] was the last grid row, row [b] begins epoch
    [e + 1] at the token right after the last one it had on epoch [e]. *)
Theorem lane_continuity sequence batch_size seq_len ohf ohl :
  (0 < batch_size)%nat → (0 < seq_len)%nat →
  (batch_size * seq_len < length sequence)%nat →
  (ohf || ohl = true → Forall valid_id sequence) →
  let g := batch_generator sequence batch_size seq_len ohf ohl in
  let N := batches_per_epoch (length sequence) batch_size seq_len in
  let cols := (N * seq_len)%nat in
  ∀ e b, (b < batch_size)%nat →
    let lane := ((b + e) `mod` batch_size)%nat in
    (∀ k, (k < N)%nat →
       x_row (nth_batch (e * N + k) g) b
         = lane_slice ohf sequence (lane * cols + k * seq_len) seq_len ∧
       y_row (nth_batch (e * N + k) g) b
         = lane_slice ohl sequence (S (lane * cols + k * seq_len)) seq_len) ∧
    ((lane * cols + cols <= batch_size * cols)%nat ∧
     (batch_size * cols < length sequence)%nat ∧
     concat ((λ k, x_row (nth_batch (e * N + k) g) b) <$> seq 0 N)
       = lane_slice ohf sequence (lane * cols) cols) ∧
    (∀ k, (k < N)%nat →
       x_row (nth_batch (S e * N + k) g) b
         = x_row (nth_batch (e * N + k) g) (S b `mod` batch_size) ∧
       y_row (nth_batch (S e * N + k) g) b
         = y_row (nth_batch (e * N + k) g) (S b `mod` batch_size)) ∧
    ((S lane < batch_size)%nat →
       x_row (nth_batch (S e * N) g) b
         = lane_slice ohf sequence (lane * cols + cols) seq_len).
Proof.
  intros HB HL Hdata Hids g N cols.
  assert (∀ e k b, (k < N)%nat → (b < batch_size)%nat →
    x_row (nth_batch (e * N + k) g) b
      = lane_slice ohf sequence
          (((b + e) `mod` batch_size) * cols + k * seq_len) seq_len ∧
    y_row (nth_batch (e * N + k) g) b
      = lane_slice ohl sequence
          (S (((b + e) `mod` batch_size) * cols + k * seq_len)) seq_len)
    as Hrow.
  { intros e k b Hk Hb. unfold g, N.
    rewrite nth_batch_eq by (done || by apply batch_setup_Ok).
    unfold x_row, y_row.
    destruct (batch_at_rows sequence batch_size seq_len ohf ohl
                HB HL Hdata e k b Hk Hb) as [-> ->]. done. }
  pose proof (num_batches_pos sequence batch_size seq_len HB HL Hdata) as HN.
  intros e b Hb lane.
  assert (lane < batch_size)%nat as Hlane
    by (apply Nat.mod_upper_bound; lia).
  split; [|split; [|split]].
  - intros k Hk. by apply Hrow.
  - split; [nia|]. split.
    { apply (rounded_len_fits sequence batch_size seq_len HB HL Hdata). }
    erewrite list_fmap_ext.
    2:{ intros i k Hik. apply lookup_seq in Hik as [-> Hik].
        simpl. apply (Hrow e i b); [lia|done]. }
    unfold lane_slice.
    rewrite <- (concat_pieces sequence seq_len N (lane * cols)
                  : _ = take cols _).
    induction (seq 0 N) as [|k ks IH]; [done|].
    cbn [fmap list_fmap concat]. rewrite fmap_app. f_equal. exact IH.
  - intros k Hk.
    assert (S b `mod` batch_size < batch_size)%nat
      by (apply Nat.mod_upper_bound; lia).
    destruct (Hrow (S e) k b Hk Hb) as [-> ->].
    destruct (Hrow e k (S b `mod` batch_size)%nat Hk) as [-> ->]; [done|].
    rewrite mod_succ_shift by done. done.
  - intros Hnext.
    replace (S e * N)%nat with (S e * N + 0)%nat by lia.
    destruct (Hrow (S e) 0%nat b HN Hb) as [-> _].
    assert ((b + S e) `mod` batch_size = S lane)%nat as ->.
    { replace (b + S e)%nat with (1 + (b + e))%nat by lia.
      rewrite <- Nat.Div0.add_mod_idemp_r.
      change ((b + e) `mod` batch_size)%nat with lane.
      apply Nat.mod_small. lia. }
    f_equal. lia.
Qed.

Lemma lane_continuity_witness :
  let sequence := [10; 11; 12; 13; 14; 15; 16; 17; 18; 19; 20; 21; 22] in
  let g := batch_generator sequence 3 2 false false in
  x_row (nth_batch (1 * 2 + 0) g) 0 = x_row (nth_batch (0 * 2 + 0) g) 1 ∧
  x_row (nth_batch (1 * 2) g) 0 = lane_slice false sequence 4 2.
Proof.
  intros sequence g.
  assert (0 < 3)%nat as HB by lia.
  assert (0 < 2)%nat as HL by lia.
  assert (3 * 2 < length sequence)%nat as Hdata by (simpl; lia).
  assert (false || false = true → Forall valid_id sequence) as Hids
    by (intros [=]).
  pose proof (lane_continuity sequence 3 2 false false HB HL Hdata Hids
                0%nat 0%nat HB) as (_ & _ & Hnext & Hstart).
  split.
  - exact (proj1 (Hnext 0%nat ltac:(vm_compute; lia))).
  - exact (Hstart ltac:(vm_compute; lia)).
Defined.

(** C2 as stated fails: with three rows, the lane of output row 0 on
    epoch 0 is not in output row 1 on epoch 1 (it is in output row 2). *)
Lemma lane_moves_to_next_row_counterexample :
  ¬ lane_moves_to_next_row (batch_generator [10; 11; 12; 13] 3 1 false false)
      3 1.
Proof.
  intros Hclaim.
  specialize (Hclaim 0%nat 0%nat 0%nat ltac:(lia) ltac:(lia)).
  vm_compute in Hclaim. discriminate Hclaim.
Qed.

(* ================================================================= *)
(** * Epoch numbers of the streaming generator *)





(* ================================================================= *)
(** * The truncated sampler *)

(** ** Sorting and slicing *)

Lemma insert_sorted_Permutation {A} (leb : A → A → bool) a l :
  insert_sorted leb a l ≡ₚ a :: l.
Proof.
  induction l as [|b l IH]; [done|]. simpl.
  destruct (leb a b); [done|]. rewrite IH. apply Permutation_swap.
Qed.

Lemma sorted_Permutation {A} (leb : A → A → bool) l : sorted leb l ≡ₚ l.
Proof.
  induction l as [|a l IH]; [done|]. unfold sorted in *. simpl.
  rewrite insert_sorted_Permutation. by rewrite IH.
Qed.

Lemma enumerate_fst {A} (l : list A) :
  (enumerate l).*1 = Z.of_nat <$> seq 0 (length l).
Proof.
  unfold enumerate.
  assert (∀ j, (imap (λ i a, (Z.of_nat (j + i), a)) l).*1
               = Z.of_nat <$> seq j (length l)) as H.
  { induction l as [|a l IH]; intros j; [done|].
    rewrite imap_cons. cbn [fmap list_fmap length seq fst].
    rewrite Nat.add_0_r. f_equal. rewrite <- (IH (S j)).
    f_equal. apply imap_ext. intros i x _. simpl. do 2 f_equal. lia. }
  apply (H 0%nat).
Qed.

(** The argsort lists every index of the array. *)
Lemma np_argsort_indices a i :
  (i < length a)%nat → Z.of_nat i ∈ np_argsort a.
Proof.
  intros Hi. unfold np_argsort.
  rewrite sorted_Permutation, enumerate_fst.
  apply list_elem_of_fmap. exists i. split; [done|].
  apply elem_of_seq. lia.
Qed.

(** [l[:j]] and [l[j:]] split [l]. *)
Lemma slice_split {A} (l : list A) (j : Z) :
  (slice l None (Some j) ++ slice l (Some j) None)%list = l.
Proof.
  unfold slice. cbn [from_option].
  set (k := slice_bound (len l) j).
  assert (0 <= k <= len l) as Hk.
  { unfold k, slice_bound, len. destruct (decide (j < 0)); lia. }
  rewrite Z.sub_0_r. change (Z.to_nat 0) with 0%nat. rewrite drop_0.
  rewrite (take_ge (drop _ _)) by (rewrite length_drop; unfold len in *; lia).
  apply take_drop.
Qed.

(** ** Truncation to zero *)

Lemma setitems_length {A} (a : list A) idx v :
  length (setitems a idx v) = length a.
Proof.
  unfold setitems. revert a. induction idx as [|j idx IH]; intros a; [done|].
  simpl. by rewrite IH, length_insert.
Qed.

(** An entry after [a[idx] = v] is [v], or it is the old entry and its
    index is none of [idx]. *)
Lemma setitems_lookup {A} (a : list A) idx v i w :
  setitems a idx v !! i = Some w →
  w = v ∨ (a !! i = Some w ∧ ∀ j, j ∈ idx → Z.to_nat j ≠ i).
Proof.
  unfold setitems. revert a. induction idx as [|j idx IH]; intros a Hw.
  - right. split; [done|]. intros j Hj. by apply elem_of_nil in Hj.
  - simpl in Hw. destruct (IH _ Hw) as [->|[Hold Hidx]]; [by left|].
    destruct (decide (Z.to_nat j = i)) as [<-|Hne].
    + left. apply lookup_lt_Some in Hold as Hlt. rewrite length_insert in Hlt.
      rewrite list_lookup_insert_eq in Hold by done. congruence.
    + right. rewrite list_lookup_insert_ne in Hold by done.
      split; [done|]. intros j' [->|Hj']%elem_of_cons; auto.
Qed.

Lemma truncate_probs_zero probs top_n :
  (∀ i v, i ∈ retained probs top_n →
     probs !! Z.to_nat i = Some v → is_zero v) →
  Forall is_zero (truncate_probs probs top_n).
Proof.
  intros Hretained. apply Forall_lookup. intros i w Hw.
  unfold truncate_probs in Hw.
  destruct (setitems_lookup _ _ _ _ _ Hw) as [->|[Hold Hcut]]; [done|].
  apply (Hretained (Z.of_nat i)); [|by rewrite Nat2Z.id].
  apply lookup_lt_Some in Hold.
  pose proof (np_argsort_indices probs i Hold) as Hin.
  rewrite <- (slice_split (np_argsort probs) (- top_n)) in Hin.
  apply elem_of_app in Hin as [Hin|Hin]; [|done].
  exfalso. apply (Hcut _ Hin). apply Nat2Z.id.
Qed.

Lemma fadd_zero p q :
  Qeq_bool p 0 = true → Qeq_bool q 0 = true → Qeq_bool (Qred (p + q)) 0 = true.
Proof.
  rewrite !Qeq_bool_iff. intros Hp Hq. rewrite Qred_correct, Hp, Hq. reflexivity.
Qed.

Lemma foldl_fadd_zero l acc :
  Qeq_bool acc 0 = true → Forall is_zero l →
  ∃ q, foldl fadd (Fin acc) l = Fin q ∧ Qeq_bool q 0 = true.
Proof.
  intros Hacc Hl. revert acc Hacc.
  induction Hl as [|v l Hv _ IH]; intros acc Hacc; [by exists acc|].
  destruct v as [q| | |]; try done. simpl.
  apply IH. by apply fadd_zero.
Qed.

Lemma np_sum_zero l :
  Forall is_zero l → ∃ q, np_sum l = Fin q ∧ Qeq_bool q 0 = true.
Proof. intros Hl. by apply foldl_fadd_zero. Qed.

Lemma fadd_NaN_l l : foldl fadd NaN l = NaN.
Proof. induction l as [|v l IH]; [done|]. simpl. exact IH. Qed.

Lemma np_sum_NaN l : l ≠ [] → Forall (λ v, v = NaN) l → np_sum l = NaN.
Proof.
  intros Hne Hl. destruct Hl as [|v l -> _]; [done|].
  unfold np_sum. simpl. apply fadd_NaN_l.
Qed.

Lemma renormalise_zero l :
  Forall is_zero l → Forall (λ v, v = NaN) (renormalise l).
Proof.
  intros Hl. unfold renormalise.
  destruct (np_sum_zero l Hl) as (q & -> & Hq).
  apply Forall_fmap. eapply list.Forall_impl; [exact Hl|].
  intros [p| | |] Hp; try done. simpl in *. by rewrite Hq, Hp.
Qed.

Lemma np_random_choice_NaN p s :
  Forall (λ v, v = NaN) p → np_random_choice (len p) p s = (Raise ValueError, s).
Proof.
  intros Hp. unfold np_random_choice.
  destruct (decide (len p <= 0)) as [|Hlen]; [done|].
  destruct (decide (len p ≠ len p)) as [|_]; [done|].
  rewrite np_sum_NaN; [done| |done].
  intros ->. apply Hlen. done.
Qed.

(** C5.  When every entry that the truncation retains is exactly zero,
    the renormalisation divides zero by zero, every probability is a NaN,
    and [np.random.choice] refuses them: the sampler raises [ValueError]
    (the degenerate-distribution error) and returns no index. *)
Theorem degenerate_distribution probs top_n s :
  (∀ i v, i ∈ retained probs top_n →
     probs !! Z.to_nat i = Some v → is_zero v) →
  sample_from_probs probs top_n s = (Raise ValueError, s).
Proof.
  intros Hretained. unfold sample_from_probs.
  apply np_random_choice_NaN, renormalise_zero.
  by apply truncate_probs_zero.
Qed.

Lemma degenerate_distribution_witness :
  let probs := [Fin (-1 # 2); Fin 0; Fin 0] in
  retained probs 2 = [1; 2] ∧
  sample_from_probs probs 2 (λ _, 7%N) = (Raise ValueError, λ _, 7%N).
Proof.
  intros probs. split; [reflexivity|].
  apply (degenerate_distribution probs 2 (λ _, 7%N)).
  intros i v Hi Hv.
  change (retained probs 2) with [1; 2] in Hi.
  apply elem_of_cons in Hi as [->|Hi];
    [|apply elem_of_cons in Hi as [->|Hi]; [|by apply elem_of_nil in Hi]];
    vm_compute in Hv; injection Hv as <-; reflexivity.
Defined.

(** ** The draw *)

Lemma random_sample_range s :
  Qle_bool 0 (random_sample s).1 = true ∧ Qle_bool 1 (random_sample s).1 = false.
Proof.
  unfold random_sample. cbn [fst].
  set (k := Z.of_N (s 0%nat) `mod` 2 ^ 53).
  assert (0 <= k < 2 ^ 53) as Hk by (apply Z.mod_pos_bound; lia).
  split.
  - apply Qle_bool_iff. rewrite Qred_correct. unfold Qle. simpl. lia.
  - apply not_true_is_false. rewrite Qle_bool_iff, Qred_correct.
    unfold Qle. cbn [Qnum Qden]. change (Z.pos (2 ^ 53)) with (2 ^ 53). lia.
Qed.

(** The binary search finds the boundary of a list whose entries are not
    above the key up to some index and above it from there on. *)
Lemma binsearch_right_partition (l1 l2 : list float64) key :
  Forall (λ v, flt key v = false) l1 → Forall (λ v, flt key v = true) l2 →
  ∀ fuel lo hi,
    (lo <= length l1 <= hi)%nat → (hi <= length (l1 ++ l2))%nat →
    (hi - lo < fuel)%nat →
    binsearch_right fuel (l1 ++ l2) key lo hi = length l1.
Proof.
  intros H1 H2.
  induction fuel as [|fuel IH]; intros lo hi Hlo Hhi Hfuel; [lia|].
  cbn [binsearch_right]. destruct (decide (lo < hi)%nat) as [Hlt|]; [|lia].
  set (mid := (lo + (hi - lo) `div` 2)%nat).
  assert (lo <= mid < hi)%nat as Hmid.
  { unfold mid. pose proof (Nat.div_lt (hi - lo) 2). lia. }
  destruct (lookup_lt_is_Some_2 (l1 ++ l2) mid) as [v Hv]; [lia|].
  rewrite Hv.
  destruct (decide (mid < length l1)%nat) as [Hin|Hout].
  - rewrite lookup_app_l in Hv by done.
    rewrite (Forall_lookup_1 _ _ _ _ H1 Hv). apply IH; lia.
  - rewrite lookup_app_r in Hv by lia.
    rewrite (Forall_lookup_1 _ _ _ _ H2 Hv). apply IH; lia.
Qed.

Lemma searchsorted_right_partition (l1 l2 : list float64) key :
  Forall (λ v, flt key v = false) l1 → Forall (λ v, flt key v = true) l2 →
  searchsorted_right (l1 ++ l2) key = length l1.
Proof.
  intros H1 H2. unfold searchsorted_right.
  apply binsearch_right_partition; try done; rewrite ?length_app; lia.
Qed.

(** [np.random.choice] once its checks pass. *)
Lemma np_random_choice_Ok (a : Z) p s total :
  0 < a → len p = a →
  is_nan (np_sum p) = false →
  existsb (λ v, flt v (Fin 0)) p = false →
  flt choice_atol (fabs_diff_1 (np_sum p)) = false →
  list.last (np_cumsum p) = Some total →
  np_random_choice a p s
  = (Ok (Z.of_nat (searchsorted_right ((λ v, fdiv v total) <$> np_cumsum p)
                     (Fin (random_sample s).1))),
     advance s).
Proof.
  intros Ha Hlen Hnan Hneg Hsum Hlast. unfold np_random_choice.
  rewrite decide_False by lia. rewrite decide_False by (intros H; by apply H).
  rewrite Hnan, Hneg, Hsum, Hlast. reflexivity.
Qed.


(* ================================================================= *)
(** * The seed selector *)

Lemma slice_within {A} (l : list A) (i j : Z) :
  0 <= i <= j → j <= len l →
  slice l (Some i) (Some j) = take (Z.to_nat (j - i)) (drop (Z.to_nat i) l).
Proof.
  intros Hi Hj. unfold slice, slice_bound. cbn [from_option].
  rewrite !decide_False by lia. rewrite !Z.min_l by lia. reflexivity.
Qed.

Lemma getitem_Ok {A} (l : list A) (i : nat) a :
  l !! i = Some a → getitem l (Z.of_nat i) = Ok a.
Proof.
  intros Hi. apply lookup_lt_Some in Hi as Hlt. unfold getitem, len.
  destruct (decide (Z.of_nat i < 0)) as [|_]; [lia|].
  rewrite decide_True by lia. by rewrite Nat2Z.id, Hi.
Qed.

(** What [random.choice] returns is the candidate at the drawn index. *)
Lemma random_choice_Ok {A} (seq : list A) s a :
  (random_choice seq s).1 = Ok a →
  seq ≠ [] ∧ a ∈ seq ∧ (random_choice seq s).2 = advance s.
Proof.
  unfold random_choice. destruct (decide (len seq = 0)) as [|Hne]; [done|].
  cbn [fst snd randbelow]. intros Hget.
  split; [by intros ->|]. split; [|done].
  unfold getitem in Hget.
  destruct (decide _) as [|]; [|done].
  destruct (seq !! _) as [a'|] eqn:Ha; [|done].
  injection Hget as <-. by eapply list_elem_of_lookup_2.
Qed.

Lemma smallest_le seq_lens c : c ∈ seq_lens → smallest seq_lens <= c.
Proof.
  unfold smallest. generalize (hd 0 seq_lens) as d.
  induction seq_lens as [|c' cs IH]; intros d Hc;
    [by apply elem_of_nil in Hc|].
  simpl. apply elem_of_cons in Hc as [->|Hc]; [lia|].
  specialize (IH d Hc). lia.
Qed.

Lemma generate_seed_chosen text seq_lens s seq_len :
  (random_choice seq_lens s).1 = Ok seq_len → 0 <= seq_len →
  ((generate_seed text seq_lens s).1 = Raise ValueError
   ↔ len text < seq_len + 1) ∧
  (seq_len + 1 <= len text →
   let start := Z.of_N (s 1%nat) `mod` (len text - seq_len) in
   0 <= start <= len text - seq_len - 1 ∧
   (generate_seed text seq_lens s).1
     = Ok (take (Z.to_nat seq_len) (drop (Z.to_nat start) text)) ∧
   length (take (Z.to_nat seq_len) (drop (Z.to_nat start) text))
     = Z.to_nat seq_len).
Proof.
  intros Hchoice Hlen.
  destruct (random_choice_Ok _ _ _ Hchoice) as (_ & _ & Hstate).
  unfold generate_seed. rewrite Hchoice, Hstate. unfold random_randint.
  destruct (decide (len text - seq_len - 1 + 1 - 0 <= 0)) as [Hshort|Hlong].
  - cbn [fst]. split; [split; [lia|done]|lia].
  - cbn [fst snd randbelow advance].
    replace (len text - seq_len - 1 + 1 - 0) with (len text - seq_len) by lia.
    change (advance s 0%nat) with (s 1%nat).
    set (start := Z.of_N (s 1%nat) `mod` (len text - seq_len)).
    assert (0 <= start < len text - seq_len) as Hstart
      by (apply Z.mod_pos_bound; lia).
    split; [split; [done|lia]|]. intros _. cbv zeta.
    split; [lia|]. rewrite Z.add_0_l.
    rewrite slice_within by lia.
    replace (start + seq_len - start) with seq_len by lia.
    split; [done|].
    rewrite length_take, length_drop. unfold len in *. lia.
Qed.

(** C6, amended.  [generate_seed] draws a candidate length first and fails
    exactly when the text is shorter than that length plus one; so it fails
    for every state of the random source when the text is shorter than the
    smallest candidate plus one, and for no state when it is at least as
    long as every candidate plus one.  When it does not fail it returns
    the substring of the drawn length that starts at the offset drawn from
    [0 .. len(text) - length - 1], and every candidate length with every
    such offset is returned for some state of the random source. *)
Theorem generate_seed_spec (text : list N) (seq_lens : list Z) :
  seq_lens ≠ [] → Forall (λ c, 0 <= c) seq_lens →
  (∀ s, ∃ seq_len,
     seq_len ∈ seq_lens ∧
     ((generate_seed text seq_lens s).1 = Raise ValueError
      ↔ len text < seq_len + 1) ∧
     (seq_len + 1 <= len text →
      ∃ start, 0 <= start <= len text - seq_len - 1 ∧
        (generate_seed text seq_lens s).1
          = Ok (take (Z.to_nat seq_len) (drop (Z.to_nat start) text)) ∧
        length (take (Z.to_nat seq_len) (drop (Z.to_nat start) text))
          = Z.to_nat seq_len)) ∧
  (len text < smallest seq_lens + 1 →
   ∀ s, (generate_seed text seq_lens s).1 = Raise ValueError) ∧
  (Forall (λ c, c + 1 <= len text) seq_lens →
   ∀ s, ∃ seed, (generate_seed text seq_lens s).1 = Ok seed) ∧
  (∀ seq_len start, seq_len ∈ seq_lens →
     0 <= start <= len text - seq_len - 1 →
     ∃ s, (generate_seed text seq_lens s).1
          = Ok (take (Z.to_nat seq_len) (drop (Z.to_nat start) text))).
Proof.
  intros Hne Hpos.
  assert (∀ s, ∃ seq_len, seq_len ∈ seq_lens ∧ 0 <= seq_len ∧
            (random_choice seq_lens s).1 = Ok seq_len) as Hchoice.
  { intros s. unfold random_choice.
    assert (0 < len seq_lens) as Hlen
      by (destruct seq_lens; [done|unfold len; simpl; lia]).
    rewrite decide_False by lia. cbn [fst snd randbelow].
    set (k := Z.of_N (s 0%nat) `mod` len seq_lens).
    assert (0 <= k < len seq_lens) as Hk by (apply Z.mod_pos_bound; lia).
    destruct (lookup_lt_is_Some_2 seq_lens (Z.to_nat k)) as [c Hc];
      [unfold len in *; lia|].
    exists c. split; [by eapply list_elem_of_lookup_2|].
    split; [by eapply (Forall_lookup_1 _ _ _ _ Hpos)|].
    rewrite <- (Z2Nat.id k) by lia. by apply getitem_Ok. }
  split; [|split; [|split]].
  - intros s. destruct (Hchoice s) as (c & Hin & Hc & Hs).
    exists c. split; [done|].
    destruct (generate_seed_chosen text seq_lens s c Hs Hc) as [Hfail Hok].
    split; [done|]. intros Hlong. eexists. by apply Hok.
  - intros Hshort s. destruct (Hchoice s) as (c & Hin & Hc & Hs).
    apply (generate_seed_chosen text seq_lens s c Hs Hc).
    pose proof (smallest_le seq_lens c Hin). lia.
  - intros Hlong s. destruct (Hchoice s) as (c & Hin & Hc & Hs).
    destruct (generate_seed_chosen text seq_lens s c Hs Hc) as [_ Hok].
    eexists. apply Hok. by apply (proj1 (list.Forall_forall _ _) Hlong).
  - intros c start Hin Hstart.
    apply list_elem_of_lookup_1 in Hin as [k Hk].
    apply lookup_lt_Some in Hk as Hlt.
    assert (0 <= c) as Hc by by eapply (Forall_lookup_1 _ _ _ _ Hpos).
    exists (two_draws (N.of_nat k) (Z.to_N start)).
    assert ((random_choice seq_lens
               (two_draws (N.of_nat k) (Z.to_N start))).1 = Ok c) as Hs.
    { unfold random_choice, len. rewrite decide_False by lia.
      cbn [fst snd randbelow two_draws].
      rewrite nat_N_Z, Z.mod_small by lia. by apply getitem_Ok. }
    destruct (generate_seed_chosen text seq_lens _ c Hs Hc) as [_ Hok].
    destruct Hok as (_ & -> & _); [lia|].
    cbn [two_draws]. rewrite Z2N.id, Z.mod_small by lia. done.
Qed.

Lemma generate_seed_spec_witness :
  let text := str "the quick brown fox jumps over the lazy dog" in
  default_seq_lens ≠ [] ∧ Forall (λ c, 0 <= c) default_seq_lens ∧
  (∀ s, ∃ seed, (generate_seed text default_seq_lens s).1 = Ok seed) ∧
  (∃ s, (generate_seed text default_seq_lens s).1 = Ok (str "brown fo")).
Proof.
  intros text.
  assert (default_seq_lens ≠ []) as Hne by discriminate.
  assert (Forall (λ c, 0 <= c) default_seq_lens) as Hpos
    by (apply (bool_decide_unpack _); vm_compute; reflexivity).
  pose proof (generate_seed_spec text default_seq_lens Hne Hpos)
    as (_ & _ & Hlong & Hreach).
  split; [exact Hne|]. split; [exact Hpos|]. split.
  - apply Hlong. apply (bool_decide_unpack _). vm_compute. reflexivity.
  - apply (Hreach 8 10).
    + apply (bool_decide_unpack _). vm_compute. reflexivity.
    + vm_compute. split; discriminate.
Defined.

(** C6 as stated fails: a text of ten characters is longer than the
    smallest candidate length plus one, and yet the selector fails when the
    random source draws the candidate length 16. *)
Lemma fails_iff_below_smallest_counterexample :
  ¬ fails_iff_below_smallest (str "abcdefghij") default_seq_lens.
Proof.
  intros Hclaim.
  destruct (Hclaim (λ _, 3%N) ValueError) as [Hfails _].
  specialize (Hfails eq_refl). vm_compute in Hfails. discriminate Hfails.
Qed.

(* ================================================================= *)
(** * The generation loop *)

Lemma sample_unknown_first s :
  sample_from_probs unknown_first 1 s = (Ok 0, advance s).
Proof.
  unfold sample_from_probs.
  assert (renormalise (truncate_probs unknown_first 1)
          = Fin 1 :: replicate 97 (Fin 0)) as -> by (vm_compute; reflexivity).
  rewrite (np_random_choice_Ok _ _ _ (Fin 1));
    [|vm_compute; reflexivity..].
  assert ((λ v, fdiv v (Fin 1)) <$> np_cumsum (Fin 1 :: replicate 97 (Fin 0))
          = [] ++ replicate 98 (Fin 1)) as -> by (vm_compute; reflexivity).
  rewrite searchsorted_right_partition; [reflexivity|constructor|].
  apply Forall_replicate. cbn [flt].
  by rewrite (proj2 (random_sample_range s)).
Qed.

Lemma generate_loop_unknown steps h next_index generated s :
  generate_loop unknown_model steps 1 h next_index generated s = Ok generated.
Proof.
  revert h next_index generated s.
  induction steps as [|steps IH]; intros h next_index generated s; [done|].
  cbn [generate_loop unknown_model predict fst snd]. rewrite bind_Ok.
  rewrite sample_unknown_first. cbn [fst snd]. rewrite bind_Ok.
  rewrite ID2CHAR_unknown. cbn [from_option]. rewrite bind_Ok.
  rewrite app_nil_r. apply IH.
Qed.

(** Every entry of [ID2CHAR] is at most one character long, so a run of
    the sampling loop adds at most one character per step. *)
Lemma ID2CHAR_short i ch : ID2CHAR !! i = Some ch → (length ch <= 1)%nat.
Proof.
  assert (map_Forall (λ _ ch, (length ch <= 1)%nat) ID2CHAR) as H
    by (apply (bool_decide_unpack _); vm_compute; reflexivity).
  apply H.
Qed.

Lemma generate_loop_length (m : model) steps top_n h next_index generated s text :
  generate_loop m steps top_n h next_index generated s = Ok text →
  (length generated <= length text <= length generated + steps)%nat.
Proof.
  revert h next_index generated s.
  induction steps as [|steps IH]; intros h next_index generated s.
  - intros [= <-]. lia.
  - cbn [generate_loop].
    destruct (predict m h next_index).1 as [probs|]; [|done]. rewrite bind_Ok.
    destruct (sample_from_probs probs top_n s).1 as [idx|]; [|done].
    rewrite bind_Ok.
    destruct (ID2CHAR !! idx) as [ch|] eqn:Hch; [|done].
    cbn [from_option]. rewrite bind_Ok. intros Hloop.
    apply IH in Hloop. rewrite length_app in Hloop.
    pose proof (ID2CHAR_short idx ch Hch). lia.
Qed.

(** C3 fails on the code.  With a model that ranks id 0 first, seed ["ab"],
    [length = 10] and [top_n = 1], every step samples id 0, which
    [ID2CHAR] decodes as the empty string: [generate_text] returns the seed
    alone, 2 characters instead of 12, whatever the random source does. *)
Theorem generate_text_short (s : random_state) :
  generate_text unknown_model (str "ab") 10 1 s = Ok (str "ab") ∧
  len (str "ab") ≠ len (str "ab") + 10.
Proof.
  split; [|done].
  unfold generate_text. cbv zeta.
  assert (encode_text (str "ab") CHAR2ID = [68; 69]) as ->
    by (vm_compute; reflexivity).
  change (slice [68; 69] None (Some (-1))) with [68].
  change (getitem [68; 69] (-1)) with (Ok 69 : result Z).
  cbn [prime unknown_model predict initial fst snd]. rewrite !bind_Ok.
  apply generate_loop_unknown.
Qed.

(* ================================================================= *)
(** * Further properties of the code *)

(** ** The symbol table as a whole *)

Lemma CHAR2ID_range : map_Forall (λ _ i, 0 <= i < VOCAB_SIZE) CHAR2ID.
Proof. apply (bool_decide_unpack _). vm_compute. reflexivity. Qed.

Lemma CHAR2ID_nonzero :
  Forall (λ ch, default 0 (CHAR2ID !! [ch]) ≠ 0) chars.
Proof. apply (bool_decide_unpack _). vm_compute. reflexivity. Qed.

Lemma ID2CHAR_keys : map_Forall (λ i _, 0 <= i < VOCAB_SIZE) ID2CHAR.
Proof. apply (bool_decide_unpack _). vm_compute. reflexivity. Qed.

Lemma ID2CHAR_chars :
  Forall (λ i, ∃ ch, ID2CHAR !! i = Some [ch] ∧ CHAR2ID !! [ch] = Some i)
    (seqZ 1 97).
Proof.
  assert (Forall (λ i, ID2CHAR !! i ≫=
                         (λ s, if decide (length s = 1%nat)
                               then CHAR2ID !! s else None) = Some i)
            (seqZ 1 97)) as H.
  { apply (bool_decide_unpack _). vm_compute. reflexivity. }
  eapply list.Forall_impl; [exact H|].
  intros i Hi. simpl in Hi.
  destruct (ID2CHAR !! i) as [[|ch [|? ?]]|]; try done. by exists ch.
Qed.

Lemma ID2CHAR_lookup i :
  (i = 0 ∧ ID2CHAR !! i = Some []) ∨
  (0 < i < VOCAB_SIZE ∧
   ∃ ch, ID2CHAR !! i = Some [ch] ∧ CHAR2ID !! [ch] = Some i) ∨
  (¬ 0 <= i < VOCAB_SIZE ∧ ID2CHAR !! i = None).
Proof.
  rewrite VOCAB_SIZE_value.
  destruct (decide (i = 0)) as [->|H0]; [left; split; [done|apply ID2CHAR_unknown]|].
  right. destruct (decide (0 < i < 98)) as [Hin|Hout].
  - left. split; [done|].
    pose proof ID2CHAR_chars as H. rewrite list.Forall_forall in H.
    apply H. apply elem_of_seqZ. lia.
  - right. split; [lia|].
    destruct (ID2CHAR !! i) as [s|] eqn:Hs; [|done].
    pose proof (ID2CHAR_keys i s Hs) as Hk. simpl in Hk.
    rewrite VOCAB_SIZE_value in Hk. lia.
Qed.

(** X1.  [encode_text] gives the character at every position of the text
    an id in [0 .. VOCAB_SIZE - 1], and the id is 0 exactly when the
    character is not supported: no supported character shares the id of
    the unknown symbol. *)
Theorem encode_text_range (text : list N) :
  ∀ i ch, text !! i = Some ch →
    ∃ id, encode_text text CHAR2ID !! i = Some id ∧
          0 <= id < VOCAB_SIZE ∧
          (id = 0 ↔ ¬ supported ch).
Proof.
  intros i ch Hch. unfold encode_text. rewrite list_lookup_fmap, Hch.
  eexists. split; [done|].
  destruct (CHAR2ID !! [ch]) as [id|] eqn:Hid; simpl.
  - split; [exact (CHAR2ID_range _ _ Hid)|].
    destruct (decide (supported ch)) as [Hs|Hs].
    + pose proof CHAR2ID_nonzero as H. rewrite list.Forall_forall in H.
      specialize (H ch Hs). rewrite Hid in H. simpl in H. tauto.
    + rewrite codec_unsupported in Hid by done. done.
  - rewrite VOCAB_SIZE_value. split; [lia|].
    split; [|done]. intros _ Hs.
    destruct (codec_supported ch Hs) as (j & Hj & _). congruence.
Qed.

Lemma encode_text_range_witness :
  str "a~" !! 1%nat = Some 126%N ∧
  ∃ id, encode_text (str "a~") CHAR2ID !! 1%nat = Some id ∧
        0 <= id < VOCAB_SIZE ∧ (id = 0 ↔ ¬ supported 126%N).
Proof.
  split; [reflexivity|].
  apply (encode_text_range (str "a~") 1%nat 126%N). reflexivity.
Defined.

(** X2.  [decode_text] returns a string when every id of the array lies
    in [0 .. VOCAB_SIZE - 1], and raises [KeyError] as soon as one id lies
    outside: [id2char] has no entry for it. *)
Theorem decode_text_KeyError (int_array : list Z) :
  (Forall (λ i, 0 <= i < VOCAB_SIZE) int_array →
   ∃ s, decode_text int_array ID2CHAR = Ok s) ∧
  (Exists (λ i, ¬ 0 <= i < VOCAB_SIZE) int_array →
   decode_text int_array ID2CHAR = Raise KeyError).
Proof.
  induction int_array as [|i l [IHok IHerr]]; split.
  - by exists [].
  - by intros ?%Exists_nil.
  - intros [Hi Hl]%list.Forall_cons. destruct (IHok Hl) as [s Hs].
    cbn [decode_text]. rewrite Hs.
    destruct (ID2CHAR_lookup i) as [[-> ->]|[[_ (ch & -> & _)]|[Hout _]]];
      [by eexists|by eexists|done].
  - intros Hex. cbn [decode_text].
    destruct (ID2CHAR_lookup i) as [[-> ->]|[[Hin (ch & -> & _)]|[Hout ->]]];
      [| |done].
    + apply List.Exists_cons in Hex as [Hex|Hex].
      { rewrite VOCAB_SIZE_value in Hex. lia. }
      by rewrite (IHerr Hex).
    + apply List.Exists_cons in Hex as [Hex|Hex]; [lia|].
      by rewrite (IHerr Hex).
Qed.

Lemma decode_text_KeyError_witness :
  decode_text [43; 98; 4] ID2CHAR = Raise KeyError ∧
  ∃ s, decode_text [43; 0; 97] ID2CHAR = Ok s.
Proof.
  split.
  - apply (proj2 (decode_text_KeyError [43; 98; 4])).
    apply List.Exists_cons; right; apply List.Exists_cons; left.
    rewrite VOCAB_SIZE_value. lia.
  - apply (proj1 (decode_text_KeyError [43; 0; 97])).
    rewrite VOCAB_SIZE_value. repeat constructor; lia.
Defined.

(** X3.  The round trip from ids to text and back: encoding what
    [decode_text] returned gives the array without its zeros, since id 0
    decodes to the empty string and every other id to one character that
    encodes to it again; and the decoded text holds supported characters
    only. *)
Theorem encode_decode_roundtrip (int_array : list Z) (s : list N) :
  decode_text int_array ID2CHAR = Ok s →
  encode_text s CHAR2ID = filter (λ i, i ≠ 0) int_array ∧
  Forall supported s.
Proof.
  revert s. induction int_array as [|i l IH]; intros s Hs.
  - injection Hs as <-. split; [reflexivity|constructor].
  - cbn [decode_text] in Hs.
    destruct (decode_text l ID2CHAR) as [r|e] eqn:Hr.
    2:{ destruct (ID2CHAR !! i); discriminate Hs. }
    destruct (IH r eq_refl) as [IHe IHs].
    destruct (ID2CHAR_lookup i) as [[-> Hi]|[[Hin (ch & Hi & Hch)]|[_ Hi]]];
      rewrite Hi in Hs; [| |discriminate Hs]; injection Hs as <-.
    + rewrite filter_cons_False by (intros H; by apply H).
      split; assumption.
    + cbn [app]. rewrite encode_text_cons, Hch. cbn [default].
      rewrite filter_cons_True by lia. split; [by rewrite IHe|].
      constructor; [|assumption].
      destruct (decide (supported ch)) as [Hy|Hn]; [assumption|].
      rewrite (codec_unsupported ch Hn) in Hch. discriminate Hch.
Qed.

Lemma encode_decode_roundtrip_witness :
  decode_text [43; 0; 76; 0] ID2CHAR = Ok (str "Hi") ∧
  encode_text (str "Hi") CHAR2ID = [43; 76].
Proof.
  assert (decode_text [43; 0; 76; 0] ID2CHAR = Ok (str "Hi")) as H
    by (vm_compute; reflexivity).
  split; [exact H|].
  exact (proj1 (encode_decode_roundtrip [43; 0; 76; 0] (str "Hi") H)).
Defined.

(** ** One-hot encoding *)

Lemma mapM_Raise {A B} (f : A → result B) (l : list A) e :
  (∀ a e', f a = Raise e' → e' = e) →
  Exists (λ a, ∃ e', f a = Raise e') l → mapM f l = Raise e.
Proof.
  intros Hf. induction l as [|a l IH]; intros Hex.
  - inversion Hex.
  - cbn [mapM]. destruct (f a) as [b|e'] eqn:Ha.
    + apply List.Exists_cons in Hex as [[e' He']|Hex]; [congruence|].
      cbn. by rewrite (IH Hex).
    + cbn. f_equal. exact (Hf a e' Ha).
Qed.

Lemma mapM_Raise_only {A B} (f : A → result B) e :
  (∀ a e', f a = Raise e' → e' = e) →
  ∀ l e', mapM f l = Raise e' → e' = e.
Proof.
  intros Hf l. induction l as [|a l IH]; intros e'; [done|].
  cbn [mapM]. destruct (f a) as [b|e0] eqn:Ha.
  - rewrite bind_Ok. destruct (mapM f l) as [bs|e1]; [done|].
    cbn. intros [= <-]. by apply IH.
  - cbn. intros [= <-]. exact (Hf a e0 Ha).
Qed.

Lemma eye_getitem_Raise num_classes i e :
  (v ← eye_getitem num_classes i; Ok (OneHot v)) = Raise e → e = IndexError.
Proof.
  unfold eye_getitem.
  destruct (decide (- num_classes <= i < num_classes)); cbn; congruence.
Qed.

Lemma one_hot_encode_Raise (indices : array2 Z) (num_classes : Z) :
  Exists (Exists (λ i, ¬ - num_classes <= i < num_classes)) (rows indices) →
  one_hot_encode indices num_classes = Raise IndexError.
Proof.
  intros Hex. unfold one_hot_encode.
  rewrite (mapM_Raise _ _ IndexError); [reflexivity| |].
  - apply mapM_Raise_only. intros i e'. apply eye_getitem_Raise.
  - eapply List.Exists_impl; [|exact Hex]. intros row Hrow. cbn beta in *.
    exists IndexError. apply mapM_Raise.
    + intros i e'. apply eye_getitem_Raise.
    + eapply List.Exists_impl; [|exact Hrow]. intros i Hi. cbn beta in *.
      exists IndexError. unfold eye_getitem.
      by rewrite decide_False by exact Hi.
Qed.



(** ** Shapes *)

Lemma cell_of_shape one_hot v : cell_shape one_hot (cell_of one_hot v).
Proof.
  destruct one_hot; cbn [cell_of cell_shape]; [|reflexivity].
  split; [reflexivity|]. unfold eye_row. by rewrite length_fmap, length_seq.
Qed.

Lemma grid_shape one_hot l (r c : nat) :
  (r * c <= length l)%nat →
  Forall (λ row, length row = c ∧ Forall (cell_shape one_hot) row)
    (rows (grid one_hot l r c)).
Proof.
  intros Hlen. apply Forall_lookup. intros b row Hrow.
  assert (b < r)%nat as Hb.
  { apply lookup_lt_Some in Hrow. by rewrite grid_rows_length in Hrow. }
  rewrite grid_row in Hrow by exact Hb. injection Hrow as <-. split.
  - rewrite length_fmap, length_take, length_drop. nia.
  - apply Forall_fmap, Forall_true. intros v. apply cell_of_shape.
Qed.

Lemma roll_rows_Forall {A} (P : list A → Prop) (a : array2 A) shift :
  Forall P (rows a) → Forall P (rows (np_roll a shift)).
Proof.
  intros H. cbn [np_roll rows]. unfold rotate.
  apply Forall_app. split; [by apply Forall_drop|by apply Forall_take].
Qed.

Lemma columns_shape one_hot (a : array2 cell) (r c w k : nat) :
  nrows a = r → length (rows a) = r →
  Forall (λ row, length row = c ∧ Forall (cell_shape one_hot) row) (rows a) →
  (S k * w <= c)%nat →
  has_shape one_hot (columns a w k) r w.
Proof.
  intros Hr Hrows Hall Hk. unfold has_shape. cbn [columns nrows ncols rows].
  split; [exact Hr|]. split; [reflexivity|].
  split; [by rewrite length_fmap|].
  apply Forall_fmap. eapply list.Forall_impl; [exact Hall|].
  intros row [Hlen Hcells]. cbn beta. split.
  - rewrite length_take, length_drop. nia.
  - by apply Forall_take, Forall_drop.
Qed.

Lemma batch_at_shape sequence batch_size seq_len ohf ohl e k :
  (0 < batch_size)%nat → (0 < seq_len)%nat →
  (batch_size * seq_len < length sequence)%nat →
  (k < batches_per_epoch (length sequence) batch_size seq_len)%nat →
  let bt := batch_at (x_grid ohf sequence batch_size seq_len)
              (y_grid ohl sequence batch_size seq_len) seq_len e k in
  has_shape ohf bt.1 batch_size seq_len ∧
  has_shape ohl bt.2 batch_size seq_len.
Proof.
  intros HB HL Hdata Hk.
  pose proof (rounded_len_fits sequence batch_size seq_len HB HL Hdata) as Hfit.
  set (N := batches_per_epoch (length sequence) batch_size seq_len) in *.
  cbv zeta. unfold batch_at. cbn [fst snd]. split.
  - apply (columns_shape ohf (np_roll _ _) _ (N * seq_len)).
    + reflexivity.
    + cbn [np_roll rows nrows]. rewrite length_rotate.
      unfold x_grid. apply grid_rows_length.
    + apply roll_rows_Forall. unfold x_grid. apply grid_shape.
      fold N. rewrite length_take. lia.
    + nia.
  - apply (columns_shape ohl (np_roll _ _) _ (N * seq_len)).
    + reflexivity.
    + cbn [np_roll rows nrows]. rewrite length_rotate.
      unfold y_grid. apply grid_rows_length.
    + apply roll_rows_Forall. unfold y_grid. apply grid_shape.
      fold N. rewrite length_take, length_drop. lia.
    + nia.
Qed.

(** X5.  Every batch that the in-memory generator yields has
    [batch_size] rows of [seq_len] cells, inputs and targets alike; a cell
    is a vector of [VOCAB_SIZE] entries where the one-hot flag is set and a
    bare id where it is not. *)
Theorem batch_generator_shape sequence batch_size seq_len ohf ohl n bt :
  nth_batch n (batch_generator sequence batch_size seq_len ohf ohl) = Ok bt →
  has_shape ohf bt.1 batch_size seq_len ∧
  has_shape ohl bt.2 batch_size seq_len.
Proof.
  intros Hb.
  destruct (batch_setup sequence batch_size seq_len ohf ohl) as [s|e]
    eqn:Hsetup.
  2:{ destruct (batch_setup_raises _ _ _ _ _ _ Hsetup) as [_ Hnone].
      destruct (Hnone n) as [e' He']. congruence. }
  destruct (batch_setup_sizes _ _ _ _ _ _ Hsetup) as (HB & HL & Hdata).
  pose proof (batch_setup_inv _ _ _ ohf ohl HB HL Hdata _ Hsetup) as ->.
  pose proof (num_batches_pos sequence batch_size seq_len HB HL Hdata) as HN.
  destruct (div_mod_position n _ HN) as [Hn Hk].
  rewrite Hn in Hb at 1. rewrite nth_batch_eq in Hb by done.
  injection Hb as <-. by apply batch_at_shape.
Qed.

Lemma batch_generator_shape_witness :
  ∃ bt, nth_batch 2 (batch_generator
                       [10;11;12;13;14;15;16;17;18;19;20;21;22] 3 2 true false)
        = Ok bt ∧
        has_shape true bt.1 3 2 ∧ has_shape false bt.2 3 2.
Proof.
  eexists. split; [vm_compute; reflexivity|].
  apply (batch_generator_shape [10;11;12;13;14;15;16;17;18;19;20;21;22]
           3 2 true false 2).
  vm_compute. reflexivity.
Defined.

(** ** What a returned batch tells about the call *)

Lemma nth_batch_inv sequence batch_size seq_len ohf ohl n bt :
  nth_batch n (batch_generator sequence batch_size seq_len ohf ohl) = Ok bt →
  let N := batches_per_epoch (length sequence) batch_size seq_len in
  let x := x_grid ohf sequence batch_size seq_len in
  let y := y_grid ohl sequence batch_size seq_len in
  (0 < batch_size)%nat ∧ (0 < seq_len)%nat ∧
  (batch_size * seq_len < length sequence)%nat ∧ (0 < N)%nat ∧
  batch_setup sequence batch_size seq_len ohf ohl = Ok (Z.of_nat N, x, y) ∧
  bt = batch_at x y seq_len (n `div` N) (n `mod` N).
Proof.
  intros Hb N x y.
  destruct (batch_setup sequence batch_size seq_len ohf ohl) as [s|e]
    eqn:Hsetup.
  2:{ destruct (batch_setup_raises _ _ _ _ _ _ Hsetup) as [_ Hnone].
      destruct (Hnone n) as [e' He']. congruence. }
  destruct (batch_setup_sizes _ _ _ _ _ _ Hsetup) as (HB & HL & Hdata).
  pose proof (batch_setup_inv _ _ _ ohf ohl HB HL Hdata _ Hsetup) as ->.
  pose proof (num_batches_pos sequence batch_size seq_len HB HL Hdata) as HN.
  destruct (div_mod_position n _ HN) as [Hn Hk].
  rewrite Hn in Hb at 1. rewrite nth_batch_eq in Hb by done.
  injection Hb as <-. done.
Qed.


(** ** Arithmetic of consecutive calls *)

Lemma succ_div_mod (n N : nat) :
  (0 < N)%nat →
  ((S n `mod` N ≠ 0 ∧ S n `div` N = n `div` N ∧
    S n `mod` N = S (n `mod` N))%nat ∨
   (S n `mod` N = 0 ∧ S n `div` N = S (n `div` N) ∧
    S (n `mod` N) = N)%nat).
Proof.
  intros HN.
  pose proof (Nat.div_mod_eq n N) as Hn.
  pose proof (Nat.mod_upper_bound n N ltac:(lia)) as Hm.
  destruct (decide (S (n `mod` N) = N)) as [Hlast|Hnot].
  - right.
    assert (S n = N * S (n `div` N) + 0)%nat as Heq by lia.
    split; [|split; [|done]].
    + symmetry. apply (Nat.mod_unique _ _ (S (n `div` N))); lia.
    + symmetry. apply (Nat.div_unique _ _ _ 0%nat); lia.
  - left.
    assert (S n `mod` N = S (n `mod` N))%nat as Hmod.
    { symmetry. apply (Nat.mod_unique _ _ (n `div` N)); lia. }
    split; [lia|]. split; [|done].
    symmetry. apply (Nat.div_unique _ _ _ (S (n `mod` N))); lia.
Qed.

Lemma add_div_mod (n N j : nat) :
  (0 < N)%nat →
  ((n + j * N) `div` N = n `div` N + j ∧ (n + j * N) `mod` N = n `mod` N)%nat.
Proof.
  intros HN. split.
  - rewrite Nat.div_add by lia. done.
  - rewrite Nat.Div0.mod_add. done.
Qed.

(** X6.  The in-memory generator repeats itself after [batch_size]
    epochs: call number [n + batch_size * N] of [next] returns the batch
    that call number [n] returned, for [N] batches per epoch. *)
Theorem batch_generator_period sequence batch_size seq_len ohf ohl n bt :
  nth_batch n (batch_generator sequence batch_size seq_len ohf ohl) = Ok bt →
  let N := batches_per_epoch (length sequence) batch_size seq_len in
  nth_batch (n + batch_size * N)
    (batch_generator sequence batch_size seq_len ohf ohl) = Ok bt.
Proof.
  intros Hb N.
  destruct (nth_batch_inv _ _ _ _ _ _ _ Hb)
    as (HB & HL & Hdata & HN & Hsetup & ->).
  destruct (div_mod_position n _ HN) as [Hn Hk].
  replace (n + batch_size * N)%nat
    with ((n `div` N + batch_size) * N + n `mod` N)%nat by (fold N in Hn; lia).
  unfold N. rewrite nth_batch_eq by done.
  f_equal. fold N. unfold batch_at.
  assert (∀ (a : array2 cell), nrows a = batch_size →
            np_roll a (- Z.of_nat (n `div` N + batch_size))
            = np_roll a (- Z.of_nat (n `div` N))) as Hroll.
  { intros a Ha. unfold np_roll. rewrite Ha. do 3 f_equal.
    rewrite !Z.opp_involutive, Nat2Z.inj_add.
    rewrite <- (Z.mul_1_l (Z.of_nat batch_size)) at 1.
    apply Z_mod_plus_full. }
  rewrite !Hroll by reflexivity. reflexivity.
Qed.

Lemma batch_generator_period_witness :
  ∃ bt,
    nth_batch 1 (batch_generator [10;11;12;13;14;15;16;17;18;19;20;21;22]
                   3 2 false false) = Ok bt ∧
    nth_batch 7 (batch_generator [10;11;12;13;14;15;16;17;18;19;20;21;22]
                   3 2 false false) = Ok bt.
Proof.
  eexists. split; [vm_compute; reflexivity|].
  apply (batch_generator_period [10;11;12;13;14;15;16;17;18;19;20;21;22]
           3 2 false false 1).
  vm_compute. reflexivity.
Defined.

(** ** Continuity of a row from one batch to the next *)

Lemma lane_start_next tokens batch_size seq_len n r :
  let N := batches_per_epoch tokens batch_size seq_len in
  (0 < N)%nat → (0 < batch_size)%nat →
  lane_start tokens batch_size seq_len (S n) r
  = if decide (S n `mod` N = 0 ∧
               (r + n `div` N) `mod` batch_size = batch_size - 1)%nat
    then 0%nat
    else (lane_start tokens batch_size seq_len n r + seq_len)%nat.
Proof.
  intros N HN HB. unfold lane_start, token_position. fold N.
  pose proof (Nat.mod_upper_bound (r + n `div` N) batch_size ltac:(lia)) as Hr.
  destruct (succ_div_mod n N HN) as [(Hne & -> & ->)|(Hz & -> & Hlast)].
  - rewrite decide_False by lia. lia.
  - rewrite Hz.
    replace (r + S (n `div` N))%nat with (S (r + n `div` N)) by lia.
    pose proof (Nat.mod_upper_bound (S (r + n `div` N)) batch_size
                  ltac:(lia)) as Hr'.
    destruct (succ_div_mod (r + n `div` N) batch_size HB)
      as [(_ & _ & Heq)|(-> & _ & Hrow)].
    + rewrite Heq in Hr' |- *. rewrite decide_False by lia.
      assert (n `mod` N * seq_len + seq_len = N * seq_len)%nat as Hcols
        by (rewrite <- Hlast at 2; lia).
      lia.
    + rewrite decide_True by lia. lia.
Qed.

(** X7.  From one call of [next] to the following one, row [r] of the
    in-memory generator goes on where it stopped: the first input of the
    new batch is the token of the last target of the old one.  This holds
    inside an epoch and from one epoch to the next, except for the one row
    per epoch boundary whose lane was the last row of the grid: that row
    starts again at the first token of the sequence. *)
Theorem batch_continuity sequence batch_size seq_len ohf ohl n bt bt' r :
  nth_batch n (batch_generator sequence batch_size seq_len ohf ohl) = Ok bt →
  nth_batch (S n) (batch_generator sequence batch_size seq_len ohf ohl)
  = Ok bt' →
  (r < batch_size)%nat →
  let N := batches_per_epoch (length sequence) batch_size seq_len in
  if decide (S n `mod` N = 0 ∧
             (r + n `div` N) `mod` batch_size = batch_size - 1)%nat
  then ∃ v, sequence !! 0%nat = Some v ∧
            item bt'.1 r 0 = Some (cell_of ohf v)
  else ∃ w, item bt.2 r (seq_len - 1) = Some (cell_of ohl w) ∧
            item bt'.1 r 0 = Some (cell_of ohf w).
Proof.
  intros Hb Hb' Hr N.
  destruct (nth_batch_inv _ _ _ _ _ _ _ Hb) as (HB & HL & Hdata & HN & _ & _).
  pose proof (batch_shift_invariant _ _ _ _ _ _ _ Hb r (seq_len - 1)%nat
                Hr ltac:(lia)) as (v & w & _ & Hw & _ & Hy).
  pose proof (batch_shift_invariant _ _ _ _ _ _ _ Hb' r 0%nat
                Hr ltac:(lia)) as (v' & w' & Hv' & _ & Hx' & _).
  rewrite (lane_start_next _ _ _ _ _ HN HB) in Hv'. fold N in Hv'.
  destruct (decide _) as [Hwrap|Hcont].
  - exists v'. done.
  - exists w. split; [done|].
    replace (S (lane_start (length sequence) batch_size seq_len n r
                + (seq_len - 1)))%nat
      with (lane_start (length sequence) batch_size seq_len n r
            + seq_len + 0)%nat in Hw by lia.
    congruence.
Qed.

Lemma batch_continuity_witness :
  ∃ bt bt',
    nth_batch 0 (batch_generator [10;11;12;13;14;15;16;17;18;19;20;21;22]
                   3 2 false false) = Ok bt ∧
    nth_batch 1 (batch_generator [10;11;12;13;14;15;16;17;18;19;20;21;22]
                   3 2 false false) = Ok bt' ∧
    ∃ w, item bt.2 0 (2 - 1) = Some (cell_of false w) ∧
         item bt'.1 0 0 = Some (cell_of false w).
Proof.
  eexists _, _. split; [vm_compute; reflexivity|].
  split; [vm_compute; reflexivity|].
  apply (batch_continuity [10;11;12;13;14;15;16;17;18;19;20;21;22]
           3 2 false false 0 _ _ 0); [vm_compute; reflexivity..|lia].
Defined.

(** ** An epoch covers the rounded sequence *)

Lemma unroll_row (B e x : nat) :
  (0 < B)%nat → (x < B)%nat →
  (((x + (B - e `mod` B)) `mod` B + e) `mod` B = x)%nat.
Proof.
  intros HB Hx. rewrite Nat.Div0.add_mod_idemp_l.
  pose proof (Nat.div_mod_eq e B) as He.
  pose proof (Nat.mod_upper_bound e B ltac:(lia)) as Hm.
  symmetry. apply (Nat.mod_unique _ _ (S (e `div` B))); [done|].
  rewrite Nat.mul_succ_r. lia.
Qed.

Lemma roll_unroll (B e b : nat) :
  (0 < B)%nat → (b < B)%nat →
  (((b + e) `mod` B + (B - e `mod` B)) `mod` B = b)%nat.
Proof.
  intros HB Hb. rewrite Nat.Div0.add_mod_idemp_l.
  pose proof (Nat.div_mod_eq e B) as He.
  pose proof (Nat.mod_upper_bound e B ltac:(lia)) as Hm.
  symmetry. apply (Nat.mod_unique _ _ (S (e `div` B))); [done|].
  rewrite Nat.mul_succ_r. lia.
Qed.

Lemma token_position_bound batch_size seq_len N e k b t :
  (0 < batch_size)%nat → (k < N)%nat → (t < seq_len)%nat →
  (token_position batch_size seq_len (N * seq_len) e k b t
   < batch_size * (N * seq_len))%nat.
Proof.
  intros HB Hk Ht. unfold token_position.
  pose proof (Nat.mod_upper_bound (b + e) batch_size ltac:(lia)) as Hr.
  assert (k * seq_len + t < N * seq_len)%nat by nia. nia.
Qed.

Lemma token_position_inj batch_size seq_len N e k b t k' b' t' :
  (k < N)%nat → (b < batch_size)%nat → (t < seq_len)%nat →
  (k' < N)%nat → (b' < batch_size)%nat → (t' < seq_len)%nat →
  token_position batch_size seq_len (N * seq_len) e k b t
  = token_position batch_size seq_len (N * seq_len) e k' b' t' →
  k = k' ∧ b = b' ∧ t = t'.
Proof.
  intros Hk Hb Ht Hk' Hb' Ht'. unfold token_position. intros Heq.
  assert (k * seq_len + t < N * seq_len)%nat as Hj by nia.
  assert (k' * seq_len + t' < N * seq_len)%nat as Hj' by nia.
  destruct (Nat.div_mod_unique (N * seq_len)
              ((b + e) `mod` batch_size) ((b' + e) `mod` batch_size)
              (k * seq_len + t) (k' * seq_len + t') Hj Hj' ltac:(lia))
    as [Hrow Hcol].
  destruct (Nat.div_mod_unique seq_len k k' t t' Ht Ht' ltac:(lia))
    as [-> ->].
  split; [done|]. split; [|done].
  rewrite <- (roll_unroll batch_size e b) by lia.
  rewrite <- (roll_unroll batch_size e b') by lia.
  by rewrite Hrow.
Qed.

(** X8.  With data for one batch, the inputs of every epoch are the
    first [batch_size * N * seq_len] tokens of the sequence, each of them
    once: the cell at row [b], time [t] of batch [k] holds the token at
    [token_position], which lies below the rounded length; every position
    below the rounded length is the position of some cell; and no two cells
    share a position.  The tokens from the rounded length on are never an
    input. *)
Theorem epoch_covers_rounded_sequence sequence batch_size seq_len ohf ohl e :
  (0 < batch_size)%nat → (0 < seq_len)%nat →
  (batch_size * seq_len < length sequence)%nat →
  (ohf || ohl = true → Forall valid_id sequence) →
  let N := batches_per_epoch (length sequence) batch_size seq_len in
  let g := batch_generator sequence batch_size seq_len ohf ohl in
  let position := token_position batch_size seq_len (N * seq_len) e in
  (∀ k b t, (k < N)%nat → (b < batch_size)%nat → (t < seq_len)%nat →
     (position k b t < batch_size * (N * seq_len))%nat ∧
     ∃ bt, nth_batch (e * N + k) g = Ok bt ∧
           item bt.1 b t = cell_of ohf <$> sequence !! position k b t) ∧
  (∀ p, (p < batch_size * (N * seq_len))%nat →
     ∃ k b t, (k < N)%nat ∧ (b < batch_size)%nat ∧ (t < seq_len)%nat ∧
              position k b t = p) ∧
  (∀ k b t k' b' t',
     (k < N)%nat → (b < batch_size)%nat → (t < seq_len)%nat →
     (k' < N)%nat → (b' < batch_size)%nat → (t' < seq_len)%nat →
     position k b t = position k' b' t' → k = k' ∧ b = b' ∧ t = t').
Proof.
  intros HB HL Hdata Hids N g position.
  pose proof (batch_setup_Ok _ _ _ ohf ohl HB HL Hdata Hids) as Hsetup.
  split; [|split].
  - intros k b t Hk Hb Ht. split; [by apply token_position_bound|].
    eexists. split; [by apply nth_batch_eq|].
    by apply (batch_at_item sequence batch_size seq_len ohf ohl HB HL Hdata).
  - intros p Hp. fold N in Hp.
    pose proof (Nat.div_mod_eq p (N * seq_len)) as Hrow.
    assert (0 < N * seq_len)%nat as Hcols by nia.
    pose proof (Nat.mod_upper_bound p (N * seq_len) ltac:(lia)) as Hj.
    pose proof (Nat.div_mod_eq (p `mod` (N * seq_len)) seq_len) as Hcol.
    pose proof (Nat.mod_upper_bound (p `mod` (N * seq_len)) seq_len
                  ltac:(lia)) as Ht.
    assert (p `div` (N * seq_len) < batch_size)%nat as Hx.
    { apply Nat.Div0.div_lt_upper_bound. lia. }
    exists ((p `mod` (N * seq_len)) `div` seq_len)%nat,
           ((p `div` (N * seq_len) + (batch_size - e `mod` batch_size))
              `mod` batch_size)%nat,
           ((p `mod` (N * seq_len)) `mod` seq_len)%nat.
    split; [apply Nat.Div0.div_lt_upper_bound; lia|].
    split; [apply Nat.mod_upper_bound; lia|].
    split; [done|].
    unfold position, token_position.
    rewrite unroll_row by done. lia.
  - intros k b t k' b' t'. apply token_position_inj.
Qed.

Lemma epoch_covers_rounded_sequence_witness :
  ∃ bt, nth_batch (1 * 2 + 1)
          (batch_generator [10;11;12;13;14;15;16;17;18;19;20;21;22]
             3 2 false false) = Ok bt ∧
        item bt.1 2 0 = Some (Id 12).
Proof.
  destruct (epoch_covers_rounded_sequence
              [10;11;12;13;14;15;16;17;18;19;20;21;22] 3 2 false false 1)
    as [Hcell _]; [lia|lia|simpl; lia|done|].
  destruct (Hcell 1%nat 2%nat 0%nat) as [_ (bt & Hbt & Hitem)];
    [vm_compute; lia|lia|lia|].
  exists bt. split; [exact Hbt|]. exact Hitem.
Defined.

(** ** The streaming generator, call by call *)







(** ** The first call of [next], case by case *)

Lemma batch_setup_zero_division sequence batch_size seq_len ohf ohl :
  (batch_size = 0 ∨ seq_len = 0)%nat →
  batch_setup sequence batch_size seq_len ohf ohl = Raise ZeroDivisionError.
Proof.
  intros Hzero. unfold batch_setup, floordiv.
  rewrite decide_True by lia. reflexivity.
Qed.

Lemma batch_setup_short sequence batch_size seq_len ohf ohl :
  (0 < batch_size)%nat → (0 < seq_len)%nat →
  (length sequence <= batch_size * seq_len)%nat →
  batch_setup sequence batch_size seq_len ohf ohl = Raise ValueError.
Proof.
  intros HB HL Hshort.
  destruct (decide (length sequence = 0%nat)) as [Hempty|Hne].
  - unfold batch_setup, floordiv, len. rewrite Hempty.
    rewrite decide_False by lia. rewrite bind_Ok.
    assert ((Z.of_nat 0 - 1) `div` (Z.of_nat batch_size * Z.of_nat seq_len) = -1)
      as ->.
    { symmetry. apply (Z.div_unique _ _ _
                         (Z.of_nat batch_size * Z.of_nat seq_len - 1)); lia. }
    rewrite decide_False by lia.
    unfold np_reshape. rewrite !decide_False by lia. reflexivity.
  - apply batch_setup_no_batches. unfold floordiv, len.
    rewrite decide_False by lia. f_equal. apply Z.div_small. lia.
Qed.

Lemma Exists_rows_reshape {A} (P : A → Prop) (l : list A) (r c : nat) :
  length l = (r * c)%nat → Exists P l →
  Exists (Exists P) ((λ i, take c (drop (i * c) l)) <$> seq 0 r).
Proof.
  intros Hlen (x & Hx & HPx)%list.Exists_exists.
  apply list_elem_of_lookup in Hx as [j Hj].
  apply lookup_lt_Some in Hj as Hlt.
  assert (0 < c)%nat as Hc by nia.
  pose proof (Nat.div_mod_eq j c) as Hdm.
  pose proof (Nat.mod_upper_bound j c ltac:(lia)) as Hm.
  apply list.Exists_exists.
  exists (take c (drop (j `div` c * c) l)). split.
  - apply list_elem_of_fmap. exists (j `div` c)%nat. split; [done|].
    apply elem_of_seq. split; [lia|].
    cbn. apply Nat.Div0.div_lt_upper_bound. lia.
  - apply list.Exists_exists. exists x. split; [|done].
    apply list_elem_of_lookup. exists (j `mod` c)%nat.
    rewrite lookup_take_lt by done. rewrite lookup_drop.
    rewrite <- Hj. f_equal. lia.
Qed.

Lemma encode_cells_Raise a :
  Exists (Exists (λ i, ¬ valid_id i)) (rows a) →
  encode_cells true a = Raise IndexError.
Proof. apply one_hot_encode_Raise. Qed.

Lemma encode_cells_cases one_hot a :
  (∃ a', encode_cells one_hot a = Ok a') ∨
  encode_cells one_hot a = Raise IndexError.
Proof.
  destruct one_hot; [|left; by eexists].
  destruct (decide (Forall (Forall valid_id) (rows a))) as [Hall|Hnot].
  - left. eexists. by apply encode_cells_Ok.
  - right. apply encode_cells_Raise.
    apply not_Forall_Exists in Hnot; [|apply _].
    eapply List.Exists_impl; [|exact Hnot]. intros row Hrow.
    unfold compose in Hrow.
    apply not_Forall_Exists in Hrow; [|apply _]. exact Hrow.
Qed.

Lemma next_batch_raise_stops g e :
  (next_batch g).1 = Raise e → ∀ n, nth_batch (S n) g = Raise StopIteration.
Proof.
  intros He n. unfold nth_batch. cbn [after_batches].
  assert ((next_batch g).2 = Finished) as ->.
  { destruct g as [sequence batch_size seq_len ohf ohl|fr|]; cbn in *.
    - destruct (batch_setup _ _ _ _ _) as [s|]; cbn in *; [|done].
      destruct (begin_epoch _ _ _ _) as [[? ?]|]; cbn in *; done.
    - destruct (pending fr); [|done].
      destruct (begin_epoch _ _ _ _) as [[? ?]|]; cbn in *; done.
    - done. }
  by rewrite after_batches_Finished.
Qed.

(** X11.  The first call of [next] on the in-memory generator, case by
    case.  A [batch_size] or [seq_len] of 0 raises [ZeroDivisionError]; a
    sequence of at most [batch_size * seq_len] tokens, the empty one
    included, raises [ValueError]; an id that [np.eye(VOCAB_SIZE)] cannot be
    indexed with, inside the part of the sequence that a one-hot encoded
    array is cut from, raises [IndexError]; otherwise every call returns a
    batch, whatever ids the dropped tail holds.  After a failure every later
    call raises [StopIteration]. *)
Theorem batch_generator_first_call sequence batch_size seq_len ohf ohl :
  let g := batch_generator sequence batch_size seq_len ohf ohl in
  let N := batches_per_epoch (length sequence) batch_size seq_len in
  let rounded_len := (batch_size * (N * seq_len))%nat in
  ((batch_size = 0 ∨ seq_len = 0)%nat →
   next_batch g = (Raise ZeroDivisionError, Finished)) ∧
  ((0 < batch_size)%nat → (0 < seq_len)%nat →
   (length sequence <= batch_size * seq_len)%nat →
   next_batch g = (Raise ValueError, Finished)) ∧
  ((0 < batch_size)%nat → (0 < seq_len)%nat →
   (batch_size * seq_len < length sequence)%nat →
   (ohf = true ∧ Exists (λ i, ¬ valid_id i) (take rounded_len sequence)) ∨
   (ohl = true ∧
    Exists (λ i, ¬ valid_id i) (take rounded_len (drop 1 sequence))) →
   next_batch g = (Raise IndexError, Finished)) ∧
  ((0 < batch_size)%nat → (0 < seq_len)%nat →
   (batch_size * seq_len < length sequence)%nat →
   (ohf = true → Forall valid_id (take rounded_len sequence)) →
   (ohl = true → Forall valid_id (take rounded_len (drop 1 sequence))) →
   ∀ n, ∃ bt, nth_batch n g = Ok bt) ∧
  (∀ e, (next_batch g).1 = Raise e →
   ∀ n, nth_batch (S n) g = Raise StopIteration).
Proof.
  intros g N rounded_len.
  assert (∀ e, batch_setup sequence batch_size seq_len ohf ohl = Raise e →
               next_batch g = (Raise e, Finished)) as Hraise.
  { intros e He. by apply batch_setup_raises. }
  split; [|split; [|split; [|split]]].
  - intros Hzero. by apply Hraise, batch_setup_zero_division.
  - intros HB HL Hshort. by apply Hraise, batch_setup_short.
  - intros HB HL Hdata Hbad. apply Hraise.
    pose proof (rounded_len_fits sequence batch_size seq_len HB HL Hdata)
      as Hfit.
    rewrite batch_setup_steps by done. fold N rounded_len.
    destruct (encode_cells_cases ohf
                (Array2 batch_size (N * seq_len)
                   ((λ i, take (N * seq_len)
                            (drop (i * (N * seq_len))
                               (take rounded_len sequence)))
                      <$> seq 0 batch_size))) as [[x0 Hx]|Hx];
      rewrite Hx; [|reflexivity].
    rewrite bind_Ok.
    destruct Hbad as [[-> Hbad]|[-> Hbad]].
    + rewrite encode_cells_Raise in Hx; [done|]. cbn [rows].
      apply Exists_rows_reshape; [|done].
      rewrite length_take. unfold rounded_len in *. fold N in Hfit. lia.
    + rewrite encode_cells_Raise; [done|]. cbn [rows].
      apply Exists_rows_reshape; [|done].
      rewrite length_take, length_drop. unfold rounded_len in *.
      fold N in Hfit. lia.
  - intros HB HL Hdata Hx Hy n.
    pose proof (num_batches_pos sequence batch_size seq_len HB HL Hdata) as HN.
    destruct (div_mod_position n _ HN) as [Hn Hk].
    eexists. rewrite Hn at 1. apply nth_batch_eq; try done.
    rewrite batch_setup_steps by done. fold N rounded_len.
    rewrite !encode_cells_Ok; [reflexivity|..];
      intros Hf; cbn [rows]; apply Forall_rows_reshape; auto.
  - apply next_batch_raise_stops.
Qed.

Lemma batch_generator_first_call_witness :
  next_batch (batch_generator [1; 2; 3; 4; 5] 2 0 false false)
  = (Raise ZeroDivisionError, Finished) ∧
  next_batch (batch_generator [] 2 2 false false)
  = (Raise ValueError, Finished) ∧
  next_batch (batch_generator [1; 2; 300; 4; 5; 6] 2 2 false true)
  = (Raise IndexError, Finished) ∧
  ∃ bt, nth_batch 5 (batch_generator [1; 2; 3; 4; 5; 300] 2 2 true true)
        = Ok bt.
Proof.
  split; [|split; [|split]].
  - apply (proj1 (batch_generator_first_call [1; 2; 3; 4; 5] 2 0 false false)).
    by right.
  - apply (proj1 (proj2 (batch_generator_first_call [] 2 2 false false)));
      simpl; lia.
  - apply (proj1 (proj2 (proj2 (batch_generator_first_call
                                  [1; 2; 300; 4; 5; 6] 2 2 false true))));
      [lia|lia|simpl; lia|].
    right. split; [done|].
    apply List.Exists_cons; right. apply List.Exists_cons; left.
    unfold valid_id. rewrite VOCAB_SIZE_value. lia.
  - apply (proj1 (proj2 (proj2 (proj2 (batch_generator_first_call
                                         [1; 2; 3; 4; 5; 300] 2 2 true true)))));
      [lia|lia|simpl; lia|intros _|intros _];
      (apply (bool_decide_unpack _); vm_compute; reflexivity).
Defined.







(** ** The order of the argsort *)

Lemma insert_sorted_ascending {A} (leb : A → A → bool) a l :
  (∀ x y, leb x y = false → leb y x = true) →
  (∀ x y z, leb x y = true → leb y z = true → leb x z = true) →
  ascending leb l → ascending leb (insert_sorted leb a l).
Proof.
  intros Htotal Htrans. induction l as [|b l IH]; intros Hl.
  - cbn. split; [constructor|done].
  - cbn [insert_sorted]. destruct Hl as [Hb Hl].
    destruct (leb a b) eqn:Hab.
    + cbn [ascending]. split; [|done]. constructor; [done|].
      eapply list.Forall_impl; [exact Hb|]. intros c Hc. cbn beta in *.
      by apply (Htrans a b c).
    + cbn [ascending]. split; [|by apply IH].
      rewrite insert_sorted_Permutation. constructor; [|done].
      by apply Htotal.
Qed.

Lemma sorted_ascending {A} (leb : A → A → bool) l :
  (∀ x y, leb x y = false → leb y x = true) →
  (∀ x y z, leb x y = true → leb y z = true → leb x z = true) →
  ascending leb (sorted leb l).
Proof.
  intros Htotal Htrans. induction l as [|a l IH]; [done|].
  unfold sorted in *. cbn [foldr]. by apply insert_sorted_ascending.
Qed.

Lemma ascending_app {A} (leb : A → A → bool) l1 l2 x y :
  ascending leb (l1 ++ l2) → x ∈ l1 → y ∈ l2 → leb x y = true.
Proof.
  induction l1 as [|a l1 IH]; intros Hasc Hx Hy;
    [by apply elem_of_nil in Hx|].
  destruct Hasc as [Ha Hasc].
  apply elem_of_cons in Hx as [->|Hx]; [|by apply IH].
  rewrite list.Forall_forall in Ha. apply Ha.
  apply elem_of_app. by right.
Qed.

Lemma sort_le_total a b : sort_le a b = false → sort_le b a = true.
Proof.
  destruct a as [p| | |], b as [q| | |]; cbn; try done.
  rewrite !negb_involutive. intros Hpq.
  apply Qle_bool_iff. apply Qlt_le_weak, Qnot_le_lt.
  intros Hle. apply Qle_bool_iff in Hle. congruence.
Qed.

Lemma sort_le_trans a b c :
  sort_le a b = true → sort_le b c = true → sort_le a c = true.
Proof.
  destruct a as [p| | |], b as [q| | |], c as [r| | |]; cbn; try done.
  rewrite !negb_involutive, !Qle_bool_iff. apply Qle_trans.
Qed.

Lemma enumerate_lookup {A} (l : list A) i v :
  (i, v) ∈ enumerate l ↔ 0 <= i ∧ l !! Z.to_nat i = Some v.
Proof.
  unfold enumerate. rewrite list_elem_of_lookup. split.
  - intros [k Hk]. rewrite list_lookup_imap in Hk.
    destruct (l !! k) as [w|] eqn:Hw; [|done]. injection Hk as <- <-.
    split; [lia|]. by rewrite Nat2Z.id.
  - intros [Hi Hv]. exists (Z.to_nat i). rewrite list_lookup_imap, Hv.
    cbn. by rewrite Z2Nat.id.
Qed.

Lemma slice_take {A} (l : list A) (j : Z) :
  slice l None (Some j) = take (Z.to_nat (slice_bound (len l) j)) l.
Proof.
  unfold slice. cbn [from_option]. rewrite Z.sub_0_r.
  change (Z.to_nat 0) with 0%nat. by rewrite drop_0.
Qed.

Lemma slice_drop {A} (l : list A) (j : Z) :
  slice l (Some j) None = drop (Z.to_nat (slice_bound (len l) j)) l.
Proof.
  unfold slice. cbn [from_option].
  apply take_ge. rewrite length_drop. unfold len.
  assert (0 <= slice_bound (Z.of_nat (length l)) j <= Z.of_nat (length l)).
  { unfold slice_bound. destruct (decide (j < 0)); lia. }
  lia.
Qed.

Lemma np_argsort_Permutation a :
  np_argsort a ≡ₚ Z.of_nat <$> seq 0 (length a).
Proof. unfold np_argsort. by rewrite sorted_Permutation, enumerate_fst. Qed.


Lemma np_argsort_NoDup a : NoDup (np_argsort a).
Proof.
  rewrite np_argsort_Permutation.
  apply NoDup_fmap; [apply _|apply NoDup_seq].
Qed.

Lemma np_argsort_range a j :
  j ∈ np_argsort a → 0 <= j < len a.
Proof.
  rewrite np_argsort_Permutation.
  intros (k & -> & Hk)%list_elem_of_fmap. apply elem_of_seq in Hk.
  unfold len. lia.
Qed.

(** An index in range is zeroed or retained, and not both. *)
Lemma zeroed_or_retained probs top_n i :
  (i < length probs)%nat →
  ((Z.of_nat i ∈ zeroed probs top_n) ∧ (Z.of_nat i ∉ retained probs top_n)) ∨
  ((Z.of_nat i ∉ zeroed probs top_n) ∧ (Z.of_nat i ∈ retained probs top_n)).
Proof.
  intros Hi. unfold zeroed, retained.
  pose proof (np_argsort_indices probs i Hi) as Hin.
  pose proof (np_argsort_NoDup probs) as Hnd.
  rewrite <- (slice_split (np_argsort probs) (- top_n)) in Hin, Hnd.
  apply list.NoDup_app in Hnd as (_ & Hdisj & _).
  apply elem_of_app in Hin as [Hin|Hin].
  - left. split; [done|]. by apply Hdisj.
  - right. split; [|done]. intros Hz. by apply (Hdisj _ Hz).
Qed.

Lemma setitems_lookup_notin {A} (a : list A) idx v (i : nat) :
  (∀ j, j ∈ idx → 0 <= j) → Z.of_nat i ∉ idx →
  setitems a idx v !! i = a !! i.
Proof.
  unfold setitems. revert a. induction idx as [|j idx IH]; intros a Hpos Hnot;
    [done|].
  cbn [foldl]. rewrite IH.
  - apply list_lookup_insert_ne. intros Hj. apply Hnot.
    specialize (Hpos j ltac:(left)). apply elem_of_cons. left. lia.
  - intros k Hk. apply Hpos. by right.
  - intros Hk. apply Hnot. by right.
Qed.

Lemma setitems_lookup_in {A} (a : list A) idx v (i : nat) :
  (∀ j, j ∈ idx → 0 <= j) →
  (i < length a)%nat → Z.of_nat i ∈ idx →
  setitems a idx v !! i = Some v.
Proof.
  revert a. induction idx as [|j idx IH]; intros a Hpos Hi Hin;
    [by apply elem_of_nil in Hin|].
  assert (∀ k, k ∈ idx → 0 <= k) as Hpos'
    by (intros k Hk; apply Hpos; by right).
  change (setitems a (j :: idx) v)
    with (setitems (<[Z.to_nat j:=v]> a) idx v).
  destruct (decide (Z.of_nat i ∈ idx)) as [Hidx|Hidx].
  - apply IH; [done|by rewrite length_insert|done].
  - apply elem_of_cons in Hin as [<-|Hin]; [|done].
    rewrite setitems_lookup_notin by done.
    rewrite Nat2Z.id. by apply list_lookup_insert_eq.
Qed.

Lemma truncate_probs_length probs top_n :
  length (truncate_probs probs top_n) = length probs.
Proof. apply setitems_length. Qed.

Lemma truncate_probs_lookup (probs : list float64) (top_n : Z) i v :
  probs !! i = Some v →
  truncate_probs probs top_n !! i
  = Some (if decide (Z.of_nat i ∈ retained probs top_n) then v else Fin 0).
Proof.
  intros Hv. apply lookup_lt_Some in Hv as Hi.
  unfold truncate_probs. fold (zeroed probs top_n).
  assert (∀ j, j ∈ zeroed probs top_n → 0 <= j) as Hpos.
  { intros j Hj. unfold zeroed in Hj. rewrite slice_take in Hj.
    apply list.elem_of_take in Hj as (k & Hk & _).
    apply list_elem_of_lookup_2, np_argsort_range in Hk. lia. }
  destruct (zeroed_or_retained probs top_n i Hi) as [[Hz Hr]|[Hz Hr]].
  - rewrite decide_False by done. by apply setitems_lookup_in.
  - rewrite decide_True by done. by rewrite setitems_lookup_notin.
Qed.



Lemma sorted_pairs_ascending (a : list float64) :
  ascending (λ p q : Z * float64, sort_le p.2 q.2)
    (sorted (λ p q, sort_le p.2 q.2) (enumerate a)).
Proof.
  apply sorted_ascending.
  - intros x y. apply sort_le_total.
  - intros x y z. apply sort_le_trans.
Qed.

(** The argsort puts the indices that are set to zero before the retained
    ones. *)
Lemma zeroed_below_retained (probs : list float64) (top_n : Z) i j v w :
  probs !! i = Some v → probs !! j = Some w →
  Z.of_nat i ∈ zeroed probs top_n → Z.of_nat j ∈ retained probs top_n →
  sort_le v w = true.
Proof.
  intros Hv Hw Hz Hj.
  unfold zeroed, retained in *. rewrite slice_take in Hz.
  rewrite slice_drop in Hj. unfold np_argsort in Hz, Hj.
  set (k := Z.to_nat _) in *.
  set (pairs := sorted _ _) in *.
  rewrite <- fmap_take in Hz. rewrite <- fmap_drop in Hj.
  apply list_elem_of_fmap in Hz as ([i' v'] & Hi' & Hz).
  apply list_elem_of_fmap in Hj as ([j' w'] & Hj' & Hj).
  cbn in Hi', Hj'. subst i' j'.
  pose proof (sorted_pairs_ascending probs) as Hasc. fold pairs in Hasc.
  rewrite <- (take_drop k pairs) in Hasc.
  pose proof (ascending_app _ _ _ _ _ Hasc Hz Hj) as Hle. cbn in Hle.
  assert (∀ n u, (Z.of_nat n, u) ∈ pairs → probs !! n = Some u) as Hpair.
  { intros n u Hn. unfold pairs in Hn. rewrite sorted_Permutation in Hn.
    apply enumerate_lookup in Hn as [_ Hn]. by rewrite Nat2Z.id in Hn. }
  apply list.elem_of_take in Hz as (? & Hz & _).
  apply list_elem_of_lookup_2, Hpair in Hz.
  apply list_elem_of_lookup in Hj as [n Hj]. rewrite lookup_drop in Hj.
  apply list_elem_of_lookup_2, Hpair in Hj.
  congruence.
Qed.

(** X15.  The truncation keeps the largest entries: an entry that is
    set to zero is at most as large, in the order of the sort, as every
    entry that is retained. *)
Theorem truncation_keeps_largest (probs : list float64) (top_n : Z) i j v w :
  probs !! i = Some v → probs !! j = Some w →
  Z.of_nat i ∉ retained probs top_n → Z.of_nat j ∈ retained probs top_n →
  sort_le v w = true.
Proof.
  intros Hv Hw Hi Hj.
  apply lookup_lt_Some in Hv as Hlt.
  destruct (zeroed_or_retained probs top_n i Hlt) as [[Hz _]|[_ Hr]].
  - by apply (zeroed_below_retained probs top_n i j).
  - exfalso. by apply Hi.
Qed.

Lemma truncation_keeps_largest_witness :
  let probs := [Fin (1 # 8); Fin (1 # 2); Fin (3 # 8)] in
  (0 ∉ retained probs 2) ∧ (2 ∈ retained probs 2) ∧
  sort_le (Fin (1 # 8)) (Fin (3 # 8)) = true.
Proof.
  intros probs.
  assert (Z.of_nat 0 ∉ retained probs 2) as H0.
  { change (retained probs 2) with [2; 1]. intros H.
    apply elem_of_cons in H as [H|H]; [discriminate H|].
    apply elem_of_cons in H as [H|H]; [discriminate H|].
    by apply elem_of_nil in H. }
  assert (Z.of_nat 2 ∈ retained probs 2) as H2.
  { change (retained probs 2) with [2; 1]. apply elem_of_cons. by left. }
  split; [exact H0|]. split; [exact H2|].
  exact (truncation_keeps_largest probs 2 0 2 _ _ eq_refl eq_refl H0 H2).
Defined.

(** ** Sums of finite values *)

Lemma qsum_nil : qsum [] = 0%Q.
Proof. reflexivity. Qed.

Lemma qsum_cons q qs : qsum (q :: qs) = (q + qsum qs)%Q.
Proof. reflexivity. Qed.

Lemma existsb_false {A} (f : A → bool) l :
  existsb f l = false → Forall (λ v, f v = false) l.
Proof.
  induction l as [|a l IH]; [constructor|]. cbn.
  intros [Ha Hl]%orb_false_iff. constructor; [done|by apply IH].
Qed.


Lemma sum_not_finite l acc :
  acc = PInf ∨ acc = NaN → Forall (λ v, v ≠ NInf) l →
  foldl fadd acc l = PInf ∨ foldl fadd acc l = NaN.
Proof.
  intros Hacc Hl. revert acc Hacc.
  induction Hl as [|v l Hv _ IH]; intros acc Hacc; [done|].
  cbn [foldl]. apply IH.
  destruct Hacc as [-> | ->]; destruct v; cbn; auto.
Qed.

Lemma sum_finite_inv l acc t :
  Forall (λ v, flt v (Fin 0) = false) l →
  foldl fadd (Fin acc) l = Fin t →
  ∃ qs, l = Fin <$> qs ∧ Forall (λ q, (0 <= q)%Q) qs ∧ (t == acc + qsum qs)%Q.
Proof.
  intros Hl. revert acc.
  induction Hl as [|v l Hv Hl IH]; intros acc Hsum.
  - injection Hsum as <-. exists []. split; [done|]. split; [constructor|].
    rewrite qsum_nil. ring.
  - assert (Forall (λ v, v ≠ NInf) l) as Hninf.
    { eapply list.Forall_impl; [exact Hl|]. intros [| | |]; cbn; congruence. }
    cbn [foldl] in Hsum. destruct v as [q| | |]; cbn in Hv, Hsum.
    + destruct (IH _ Hsum) as (qs & -> & Hqs & Ht).
      exists (q :: qs). split; [done|]. split.
      * constructor; [|done]. apply Qle_bool_iff.
        by destruct (Qle_bool 0 q).
      * rewrite Ht, Qred_correct, qsum_cons. ring.
    + destruct (sum_not_finite l PInf ltac:(by left) Hninf); congruence.
    + done.
    + destruct (sum_not_finite l NaN ltac:(by right) Hninf); congruence.
Qed.




(** ** Cumulative sums *)

Lemma cumsum_from_psums qs acc acc' :
  (acc' == acc)%Q →
  Forall2 (λ v x, ∃ y, v = Fin y ∧ (y == x)%Q)
    (cumsum_from (Fin acc') (Fin <$> qs)) (psums acc qs).
Proof.
  revert acc acc'. induction qs as [|q qs IH]; intros acc acc' Hacc;
    [constructor|].
  cbn [fmap list_fmap cumsum_from psums fadd]. constructor.
  - eexists. split; [done|]. by rewrite Qred_correct, Hacc.
  - apply IH. by rewrite Qred_correct, Hacc.
Qed.

Lemma np_cumsum_psums qs :
  Forall2 (λ v x, ∃ y, v = Fin y ∧ (y == x)%Q)
    (np_cumsum (Fin <$> qs)) (psums 0 qs).
Proof.
  destruct qs as [|q qs]; [constructor|].
  cbn [fmap list_fmap np_cumsum psums]. constructor.
  - exists q. split; [done|]. ring.
  - apply cumsum_from_psums. ring.
Qed.

Lemma psums_length acc qs : length (psums acc qs) = length qs.
Proof.
  revert acc. induction qs as [|q qs IH]; intros acc; [done|].
  cbn. by rewrite IH.
Qed.

Lemma psums_ge acc qs j x :
  Forall (λ q, (0 <= q)%Q) qs → psums acc qs !! j = Some x → (acc <= x)%Q.
Proof.
  intros Hqs. revert acc j.
  induction Hqs as [|q qs Hq _ IH]; intros acc j Hj; [done|].
  assert (acc <= acc + q)%Q as Hstep.
  { rewrite <- (Qplus_0_r acc) at 1.
    apply Qplus_le_compat; [apply Qle_refl|done]. }
  destruct j as [|j]; cbn in Hj.
  - by injection Hj as <-.
  - eapply Qle_trans; [exact Hstep|]. by eapply IH.
Qed.

Lemma psums_mono acc qs j j' x x' :
  Forall (λ q, (0 <= q)%Q) qs → (j <= j')%nat →
  psums acc qs !! j = Some x → psums acc qs !! j' = Some x' → (x <= x')%Q.
Proof.
  intros Hqs. revert acc j j'.
  induction Hqs as [|q qs Hq Hqs IH]; intros acc j j' Hjj Hj Hj'; [done|].
  destruct j as [|j], j' as [|j']; cbn in Hj, Hj'; try lia.
  - injection Hj as <-. injection Hj' as <-. apply Qle_refl.
  - injection Hj as <-. by eapply psums_ge.
  - eapply IH; [|exact Hj|exact Hj']. lia.
Qed.

Lemma psums_step acc qs j x q :
  psums acc qs !! j = Some x → qs !! S j = Some q →
  psums acc qs !! S j = Some (x + q)%Q.
Proof.
  revert acc j. induction qs as [|q0 qs IH]; intros acc j Hj Hq; [done|].
  destruct j as [|j]; cbn in Hj, Hq |- *.
  - injection Hj as <-. destruct qs as [|q1 qs]; [done|].
    cbn in Hq |- *. by injection Hq as ->.
  - by apply IH.
Qed.

Lemma psums_last acc qs x :
  list.last (psums acc qs) = Some x → (x == acc + qsum qs)%Q.
Proof.
  revert acc. induction qs as [|q qs IH]; intros acc Hx; [done|].
  destruct qs as [|q' qs].
  - cbn in Hx. injection Hx as <-. rewrite qsum_cons, qsum_nil. ring.
  - change (list.last (psums acc (q :: q' :: qs)))
      with (list.last (psums (acc + q) (q' :: qs))) in Hx.
    rewrite (IH _ Hx). rewrite !qsum_cons. ring.
Qed.

(** ** The binary search on a sorted array *)

Lemma sorted_partition (a : list float64) key :
  (∀ j j' v v', (j <= j')%nat → a !! j = Some v → a !! j' = Some v' →
     flt key v = true → flt key v' = true) →
  ∃ l1 l2, a = (l1 ++ l2)%list ∧
           Forall (λ v, flt key v = false) l1 ∧
           Forall (λ v, flt key v = true) l2.
Proof.
  induction a as [|v a IH]; intros Hmono.
  - exists [], []. by repeat split.
  - destruct (flt key v) eqn:Hv.
    + exists [], (v :: a). split; [done|]. split; [constructor|].
      apply Forall_lookup. intros j w Hw.
      by apply (Hmono 0%nat j v w ltac:(lia) eq_refl Hw).
    + destruct IH as (l1 & l2 & -> & H1 & H2).
      { intros j j' w w' Hjj Hw Hw'.
        apply (Hmono (S j) (S j') w w'); [lia|done..]. }
      exists (v :: l1), l2. split; [done|]. split; [by constructor|done].
Qed.

Lemma searchsorted_right_spec (a : list float64) key vl :
  (∀ j j' v v', (j <= j')%nat → a !! j = Some v → a !! j' = Some v' →
     flt key v = true → flt key v' = true) →
  list.last a = Some vl → flt key vl = true →
  let m := searchsorted_right a key in
  (∃ v, a !! m = Some v ∧ flt key v = true) ∧
  ∀ j w, (j < m)%nat → a !! j = Some w → flt key w = false.
Proof.
  intros Hmono Hlast Hvl m.
  destruct (sorted_partition a key Hmono) as (l1 & l2 & -> & H1 & H2).
  unfold m. rewrite searchsorted_right_partition by done. split.
  - destruct l2 as [|v l2].
    + rewrite app_nil_r in Hlast.
      rewrite last_lookup in Hlast.
      apply (Forall_lookup_1 _ _ _ _ H1) in Hlast. congruence.
    + exists v. split; [|by inversion H2].
      rewrite lookup_app_r by lia. by rewrite Nat.sub_diag.
  - intros j w Hj Hw. rewrite lookup_app_l in Hw by done.
    by apply (Forall_lookup_1 _ _ _ _ H1) in Hw.
Qed.

(** ** Division by a positive total *)

Lemma fdiv_Fin y t :
  (0 < t)%Q → fdiv (Fin y) (Fin t) = Fin (Qred (y / t)).
Proof.
  intros Ht. cbn [fdiv].
  destruct (Qeq_bool t 0) eqn:Hz; [|done].
  apply Qeq_bool_iff in Hz. rewrite Hz in Ht. by apply Qlt_irrefl in Ht.
Qed.

Lemma Qdiv_le_mono x y t : (0 < t)%Q → (x <= y)%Q → (x / t <= y / t)%Q.
Proof.
  intros Ht Hxy. unfold Qdiv. apply Qmult_le_compat_r; [done|].
  apply Qlt_le_weak. by apply Qinv_lt_0_compat.
Qed.

Lemma Qdiv_lt_inv x y t : (0 < t)%Q → (x / t < y / t)%Q → (x < y)%Q.
Proof.
  intros Ht Hxy. apply Qnot_le_lt. intros Hle.
  apply (Qlt_not_le _ _ Hxy). by apply Qdiv_le_mono.
Qed.

Lemma flt_Fin u z : flt (Fin u) (Fin z) = true ↔ (u < z)%Q.
Proof.
  cbn [flt]. rewrite negb_true_iff. split.
  - intros H. apply Qnot_le_lt. intros Hle. apply Qle_bool_iff in Hle.
    congruence.
  - intros H. apply not_true_is_false. rewrite Qle_bool_iff.
    by apply Qlt_not_le.
Qed.

Lemma flt_Fin_false u z : flt (Fin u) (Fin z) = false ↔ (z <= u)%Q.
Proof.
  cbn [flt]. rewrite negb_false_iff. apply Qle_bool_iff.
Qed.

(** ** The draw lands on positive mass *)

Lemma choice_lands_on_mass qs total (u : Q) :
  Forall (λ q, (0 <= q)%Q) qs →
  list.last (np_cumsum (Fin <$> qs)) = Some total →
  (0 < qsum qs)%Q → (0 <= u)%Q → (u < 1)%Q →
  let m := searchsorted_right
             ((λ v, fdiv v total) <$> np_cumsum (Fin <$> qs)) (Fin u) in
  ∃ q, qs !! m = Some q ∧ (0 < q)%Q.
Proof.
  intros Hqs Hlast Hpos Hu0 Hu1 m.
  pose proof (np_cumsum_psums qs) as Hrel.
  (* the total *)
  assert (∃ t, total = Fin t ∧ (t == qsum qs)%Q) as (t & -> & Ht).
  { rewrite last_lookup in Hlast.
    destruct (Forall2_lookup_l _ _ _ _ _ Hrel Hlast) as (x & Hx & y & -> & Hy).
    exists y. split; [done|]. rewrite Hy.
    pose proof Hrel as Hlen. apply Forall2_length in Hlen.
    rewrite Hlen in Hx.
    rewrite <- last_lookup in Hx. rewrite (psums_last _ _ _ Hx). ring. }
  assert (0 < t)%Q as Htpos by by rewrite Ht.
  set (cdf := (λ v, fdiv v (Fin t)) <$> np_cumsum (Fin <$> qs)) in *.
  assert (∀ j v, cdf !! j = Some v →
            ∃ x, psums 0 qs !! j = Some x ∧
                 ∀ z, flt (Fin z) v = true ↔ (z < x / t)%Q) as Hcdf.
  { intros j v Hv. unfold cdf in Hv. rewrite list_lookup_fmap in Hv.
    destruct (np_cumsum (Fin <$> qs) !! j) as [c|] eqn:Hc; [|done].
    injection Hv as <-.
    destruct (Forall2_lookup_l _ _ _ _ _ Hrel Hc) as (x & Hx & y & -> & Hy).
    exists x. split; [done|]. intros z.
    rewrite fdiv_Fin by done. rewrite flt_Fin, Qred_correct, Hy. done. }
  destruct (searchsorted_right_spec cdf (Fin u) (Fin (Qred (t / t))))
    as [(v & Hv & Hflt) Hbelow].
  - intros j j' v v' Hjj Hv Hv'.
    destruct (Hcdf j v Hv) as (x & Hx & Hxv).
    destruct (Hcdf j' v' Hv') as (x' & Hx' & Hxv').
    rewrite Hxv, Hxv'. intros Hlt.
    eapply Qlt_le_trans; [exact Hlt|].
    apply Qdiv_le_mono; [done|]. by eapply psums_mono.
  - unfold cdf. rewrite fmap_last, Hlast. cbn [fmap option_fmap option_map].
    by rewrite fdiv_Fin.
  - rewrite flt_Fin, Qred_correct.
    assert (t / t == 1)%Q as -> by (field; intros H0; rewrite H0 in Htpos;
                                    by apply Qlt_irrefl in Htpos).
    done.
  - fold m in Hv, Hbelow.
    destruct (Hcdf m v Hv) as (x & Hx & Hxv).
    apply Hxv in Hflt.
    assert (m < length qs)%nat as Hm.
    { apply lookup_lt_Some in Hx. by rewrite psums_length in Hx. }
    destruct (lookup_lt_is_Some_2 qs m Hm) as [q Hq].
    exists q. split; [done|].
    destruct m as [|j].
    + destruct qs as [|q0 qs']; [done|]. cbn in Hx, Hq.
      injection Hx as <-. injection Hq as ->.
      assert (0 < (0 + q) / t)%Q as H by (eapply Qle_lt_trans; done).
      rewrite <- (Qplus_0_l q). apply (Qdiv_lt_inv 0 (0 + q) t Htpos).
      assert (0 / t == 0)%Q as -> by (field; intros H0; rewrite H0 in Htpos;
                                      by apply Qlt_irrefl in Htpos).
      done.
    + assert (j < length cdf)%nat as Hj
        by (apply lookup_lt_Some in Hv; lia).
      destruct (lookup_lt_is_Some_2 cdf j Hj) as [w Hw].
      destruct (Hcdf j w Hw) as (xj & Hxj & Hxw).
      pose proof (Hbelow j w ltac:(lia) Hw) as Hwf.
      assert (xj / t <= u)%Q as Hle.
      { apply Qnot_lt_le. intros Hlt. apply Hxw in Hlt. congruence. }
      rewrite (psums_step _ _ _ _ _ Hxj Hq) in Hx. injection Hx as <-.
      assert (xj / t < (xj + q) / t)%Q as Hstep
        by (eapply Qle_lt_trans; done).
      apply Qdiv_lt_inv in Hstep; [|done].
      apply Qnot_le_lt. intros Hq0.
      apply (Qlt_not_le _ _ Hstep).
      rewrite <- (Qplus_0_r xj) at 2.
      apply Qplus_le_compat; [apply Qle_refl|done].
Qed.

(** ** What the checks of [np.random.choice] establish *)

Lemma np_random_choice_inv (a : Z) p s i s' :
  np_random_choice a p s = (Ok i, s') →
  0 < a ∧ len p = a ∧
  is_nan (np_sum p) = false ∧
  existsb (λ v, flt v (Fin 0)) p = false ∧
  flt choice_atol (fabs_diff_1 (np_sum p)) = false ∧
  ∃ total,
    list.last (np_cumsum p) = Some total ∧
    i = Z.of_nat (searchsorted_right ((λ v, fdiv v total) <$> np_cumsum p)
                    (Fin (random_sample s).1)) ∧
    s' = advance s.
Proof.
  unfold np_random_choice.
  destruct (decide (a <= 0)) as [|Ha]; [done|].
  destruct (decide (len p ≠ a)) as [|Hlen]; [done|].
  destruct (is_nan (np_sum p)) eqn:Hnan; [done|].
  destruct (existsb _ p) eqn:Hneg; [done|].
  destruct (flt choice_atol _) eqn:Hsum; [done|].
  destruct (list.last (np_cumsum p)) as [total|] eqn:Hlast; [|done].
  intros [= <- <-].
  split; [lia|]. split; [by apply dec_stable|].
  repeat split. by exists total.
Qed.

Lemma one_minus_atol_pos t :
  (Qabs (t - 1) <= 1 # 2 ^ 26)%Q → (0 < t)%Q.
Proof.
  intros Habs. apply Qabs_Qle_condition in Habs as [Hlow _].
  apply (Qlt_le_trans _ (- (1 # 2 ^ 26) + 1)); [reflexivity|].
  assert (t == (t - 1) + 1)%Q as -> by ring.
  apply Qplus_le_compat; [done|apply Qle_refl].
Qed.

Lemma choice_checks p :
  is_nan (np_sum p) = false →
  existsb (λ v, flt v (Fin 0)) p = false →
  flt choice_atol (fabs_diff_1 (np_sum p)) = false →
  ∃ qs, p = Fin <$> qs ∧ Forall (λ q, (0 <= q)%Q) qs ∧ (0 < qsum qs)%Q.
Proof.
  intros Hnan Hneg Hsum. apply existsb_false in Hneg.
  unfold np_sum in *.
  destruct (foldl fadd (Fin 0) p) as [t| | |] eqn:Ht; try done.
  destruct (sum_finite_inv _ _ _ Hneg Ht) as (qs & -> & Hqs & Heq).
  exists qs. split; [done|]. split; [done|].
  unfold choice_atol, fabs_diff_1 in Hsum.
  apply flt_Fin_false in Hsum. rewrite Qred_correct in Hsum.
  apply one_minus_atol_pos in Hsum.
  rewrite Heq, Qplus_0_l in Hsum. done.
Qed.

Lemma random_sample_unit s :
  (0 <= (random_sample s).1)%Q ∧ ((random_sample s).1 < 1)%Q.
Proof.
  destruct (random_sample_range s) as [H0 H1]. split.
  - by apply Qle_bool_iff.
  - apply Qnot_le_lt. intros Hle. apply Qle_bool_iff in Hle. congruence.
Qed.

(** A zero divided by anything is no positive number. *)
Lemma fdiv_zero_not_pos z total q :
  (z == 0)%Q → fdiv (Fin z) total = Fin q → ¬ (0 < q)%Q.
Proof.
  intros Hz. destruct total as [t| | |]; cbn [fdiv].
  - destruct (Qeq_bool t 0) eqn:Ht.
    + apply Qeq_bool_iff in Hz as ->. done.
    + intros [= <-]. rewrite Qred_correct, Hz. intros Hpos.
      apply (Qlt_irrefl 0). eapply Qlt_le_trans; [exact Hpos|].
      apply Qeq_bool_neq in Ht. unfold Qdiv. rewrite Qmult_0_l.
      apply Qle_refl.
  - intros [= <-]. apply Qlt_irrefl.
  - intros [= <-]. apply Qlt_irrefl.
  - done.
Qed.

Lemma fdiv_pos_inv v total q :
  fdiv v total = Fin q → (0 < q)%Q → ∃ z, v = Fin z ∧ ¬ (z == 0)%Q.
Proof.
  intros Hdiv Hq. destruct v as [z| | |].
  - exists z. split; [done|]. intros Hz.
    by apply (fdiv_zero_not_pos z total q Hz Hdiv).
  - destruct total as [t| | |]; cbn in Hdiv; try done.
    by destruct (Qle_bool 0 t).
  - destruct total as [t| | |]; cbn in Hdiv; try done.
    by destruct (Qle_bool 0 t).
  - done.
Qed.

(** The index drawn has a positive probability after the truncation and
    the renormalisation, which only a retained entry that is not zero
    has. *)
Lemma sample_from_probs_lands probs top_n s i s' :
  sample_from_probs probs top_n s = (Ok i, s') →
  0 <= i < len probs ∧
  i ∈ retained probs top_n ∧
  (∃ q, probs !! Z.to_nat i = Some (Fin q) ∧ ¬ (q == 0)%Q) ∧
  s' = advance s ∧
  ∃ p, renormalise (truncate_probs probs top_n) !! Z.to_nat i = Some (Fin p) ∧
       (0 < p)%Q.
Proof.
  unfold sample_from_probs.
  set (trunc := truncate_probs probs top_n).
  intros Hchoice.
  apply np_random_choice_inv in Hchoice
    as (_ & _ & Hnan & Hneg & Hsum & total & Hlast & -> & ->).
  destruct (choice_checks _ Hnan Hneg Hsum) as (qs & Hp & Hqs & Hpos).
  rewrite Hp in Hlast |- *.
  destruct (random_sample_unit s) as [Hu0 Hu1].
  destruct (choice_lands_on_mass qs total _ Hqs Hlast Hpos Hu0 Hu1)
    as (q & Hq & Hqpos).
  set (m := searchsorted_right _ _) in *.
  assert (renormalise trunc !! m = Some (Fin q)) as Hm
    by (by rewrite Hp, list_lookup_fmap, Hq).
  unfold renormalise in Hm. rewrite list_lookup_fmap in Hm.
  destruct (trunc !! m) as [tv|] eqn:Htv; [|done]. injection Hm as Hdiv.
  apply lookup_lt_Some in Htv as Hlt.
  unfold trunc in Hlt. rewrite truncate_probs_length in Hlt.
  destruct (lookup_lt_is_Some_2 probs m Hlt) as [v Hv].
  unfold trunc in Htv. rewrite (truncate_probs_lookup _ _ _ _ Hv) in Htv.
  injection Htv as <-. rewrite Nat2Z.id.
  split; [unfold len; lia|].
  destruct (decide (Z.of_nat m ∈ retained probs top_n)) as [Hr|Hr].
  - split; [done|]. split; [|split; [done|]].
    2:{ exists q. split; [|exact Hqpos]. by rewrite list_lookup_fmap, Hq. }
    destruct (fdiv_pos_inv _ _ _ Hdiv Hqpos) as (z & -> & Hz). by exists z.
  - exfalso. by apply (fdiv_zero_not_pos 0 _ q (Qeq_refl 0) Hdiv).
Qed.



(** ** Genuine distributions *)







(** ** The text that the loop adds *)

Lemma ID2CHAR_supported i s :
  ID2CHAR !! i = Some s → Forall supported s ∧ (i ≠ 0 → length s = 1%nat).
Proof.
  intros Hs.
  destruct (ID2CHAR_lookup i) as [[-> H0]|[[Hin (ch & Hch & Hid)]|[_ Hn]]].
  - rewrite H0 in Hs. injection Hs as <-. clear H0.
    split; [constructor|]. intros H. by destruct H.
  - rewrite Hch in Hs. injection Hs as <-. split; [|reflexivity].
    constructor; [|constructor].
    destruct (decide (supported ch)) as [Hy|Hn]; [assumption|].
    rewrite (codec_unsupported ch Hn) in Hid. discriminate Hid.
  - rewrite Hn in Hs. discriminate Hs.
Qed.

Lemma generate_loop_extends (m : model) steps top_n h next_index generated s
    text :
  generate_loop m steps top_n h next_index generated s = Ok text →
  ∃ added, text = (generated ++ added)%list ∧
           (length added <= steps)%nat ∧ Forall supported added.
Proof.
  revert h next_index generated s.
  induction steps as [|steps IH]; intros h next_index generated s.
  - intros [= <-]. exists []. rewrite app_nil_r. split; [done|].
    split; [done|constructor].
  - cbn [generate_loop].
    destruct (predict m h next_index).1 as [probs|]; [|done]. rewrite bind_Ok.
    destruct (sample_from_probs probs top_n s).1 as [idx|]; [|done].
    rewrite bind_Ok.
    destruct (ID2CHAR !! idx) as [ch|] eqn:Hch; [|done].
    cbn [from_option]. rewrite bind_Ok. intros Hloop.
    apply IH in Hloop as (added & -> & Hlen & Hsup).
    exists (ch ++ added)%list. rewrite app_assoc. split; [done|].
    pose proof (ID2CHAR_short idx ch Hch).
    destruct (ID2CHAR_supported idx ch Hch) as [Hch_sup _].
    split; [rewrite length_app; lia|].
    apply Forall_app. split; assumption.
Qed.

(** X18.  A text that [generate_text] returns starts with the seed,
    which is not empty, and goes on with at most [length] characters, all
    of them supported ones. *)
Theorem generate_text_extends_seed (m : model) seed length top_n s text :
  generate_text m seed length top_n s = Ok text →
  seed ≠ [] ∧
  ∃ added, text = (seed ++ added)%list ∧
           (List.length added <= Z.to_nat length)%nat ∧
           Forall supported added.
Proof.
  unfold generate_text. cbv zeta.
  destruct (prime m _ _).1 as [[]|]; [|done]. rewrite bind_Ok.
  destruct seed as [|ch seed]; [done|].
  destruct (getitem _ _) as [next_index|]; [|done]. rewrite bind_Ok.
  intros Hloop. split; [done|]. by apply generate_loop_extends in Hloop.
Qed.

Lemma generate_text_extends_seed_witness :
  ∃ text,
    generate_text two_ids_model (str "ab") 3 2 (λ _, 5%N) = Ok text ∧
    ∃ added, text = (str "ab" ++ added)%list ∧
             (List.length added <= Z.to_nat 3)%nat ∧ Forall supported added.
Proof.
  eexists. split; [vm_compute; reflexivity|].
  refine (proj2 (generate_text_extends_seed two_ids_model (str "ab") 3 2
                   (λ _, 5%N) _ _)).
  vm_compute. reflexivity.
Defined.

(** X19.  The edges of [generate_text].  An empty seed raises
    [IndexError] at [encoded[-1]]; with [length <= 0] the sampling loop
    does not run and the seed comes back as it is, for a seed of one
    character without a single call of the model; and an exception of the
    model while it is primed on the seed is passed on. *)
Theorem generate_text_edges (m : model) length top_n s :
  generate_text m [] length top_n s = Raise IndexError ∧
  (∀ seed,
     seed ≠ [] → length <= 0 →
     (prime m (initial m)
        (slice (encode_text seed CHAR2ID) None (Some (-1)))).1 = Ok () →
     generate_text m seed length top_n s = Ok seed) ∧
  (∀ ch, length <= 0 → generate_text m [ch] length top_n s = Ok [ch]) ∧
  (∀ seed e,
     (prime m (initial m)
        (slice (encode_text seed CHAR2ID) None (Some (-1)))).1 = Raise e →
     generate_text m seed length top_n s = Raise e).
Proof.
  assert (∀ seed,
     seed ≠ [] → length <= 0 →
     (prime m (initial m)
        (slice (encode_text seed CHAR2ID) None (Some (-1)))).1 = Ok () →
     generate_text m seed length top_n s = Ok seed) as Hzero.
  { intros seed Hne Hlen Hprime. unfold generate_text. cbv zeta.
    rewrite Hprime, bind_Ok.
    assert (∃ i, getitem (encode_text seed CHAR2ID) (-1) = Ok i) as [i ->].
    { destruct (encode_text seed CHAR2ID) as [|i l] eqn:He.
      - apply (f_equal List.length) in He.
        rewrite encode_text_length in He. by destruct seed.
      - generalize (i :: l) (ltac:(done) : i :: l ≠ []). clear.
        intros l Hl. unfold getitem, len.
        assert (0 < List.length l)%nat by (destruct l; [done|cbn; lia]).
        destruct (decide (-1 < 0)) as [_|]; [|lia].
        rewrite decide_True by lia.
        destruct (lookup_lt_is_Some_2 l (Z.to_nat (-1 + Z.of_nat (List.length l))))
          as [a ->]; [lia|]. by eexists. }
    rewrite bind_Ok. replace (Z.to_nat length) with 0%nat by lia.
    reflexivity. }
  split; [|split; [|split]].
  - reflexivity.
  - exact Hzero.
  - intros ch Hlen. apply Hzero; [done|done|].
    rewrite encode_text_cons. reflexivity.
  - intros seed e Hprime. unfold generate_text. cbv zeta. by rewrite Hprime.
Qed.

Lemma generate_text_edges_witness :
  generate_text unknown_model (str "abc") (-4) 1 (λ _, 0%N) = Ok (str "abc").
Proof.
  apply (proj1 (proj2 (generate_text_edges unknown_model (-4) 1 (λ _, 0%N))));
    [done|lia|reflexivity].
Defined.

(** ** When the loop adds one character per step *)




(** ** Where a seed lies in the text *)

Lemma generate_seed_within (text : list N) (seq_lens : list Z) s :
  Forall (λ c, 0 <= c) seq_lens →
  ∀ seed, (generate_seed text seq_lens s).1 = Ok seed →
    Z.of_nat (length seed) ∈ seq_lens ∧
    ∃ start, (start + length seed < length text)%nat ∧
             seed = take (length seed) (drop start text).
Proof.
  intros Hpos seed Hseed.
  destruct (random_choice seq_lens s).1 as [seq_len|e] eqn:Hchoice.
  2:{ unfold generate_seed in Hseed. rewrite Hchoice in Hseed.
      discriminate Hseed. }
  destruct (random_choice_Ok _ _ _ Hchoice) as (_ & Hin & _).
  assert (0 <= seq_len) as Hlen
    by (rewrite list.Forall_forall in Hpos; by apply Hpos).
  destruct (generate_seed_chosen text seq_lens s seq_len Hchoice Hlen)
    as [Hfail Hok].
  destruct (decide (seq_len + 1 <= len text)) as [Hfits|Hshort].
  - destruct (Hok Hfits) as (Hstart & Hval & Hlength).
    rewrite Hval in Hseed. injection Hseed as <-.
    rewrite Hlength, Z2Nat.id by done. split; [done|].
    eexists. split; [|reflexivity]. unfold len in *. lia.
  - rewrite (proj2 Hfail) in Hseed by lia. discriminate Hseed.
Qed.

(** X21.  [generate_seed] raises [IndexError] for an empty tuple of
    candidate lengths.  With candidates that are not negative, a seed that
    it returns has one of the candidate lengths and is a substring of the
    text that ends before the last character: the last character of the
    text is never part of a seed. *)
Theorem generate_seed_inside (text : list N) (seq_lens : list Z) s :
  generate_seed text [] s = (Raise IndexError, s) ∧
  (Forall (λ c, 0 <= c) seq_lens →
   ∀ seed, (generate_seed text seq_lens s).1 = Ok seed →
     Z.of_nat (length seed) ∈ seq_lens ∧
     ∃ start, (start + length seed < length text)%nat ∧
              seed = take (length seed) (drop start text)).
Proof. split; [reflexivity|apply generate_seed_within]. Qed.

Lemma generate_seed_inside_witness :
  ∃ start, (start + length (str "bcde") < length (str "abcdefghij"))%nat ∧
           str "bcde" = take (length (str "bcde")) (drop start (str "abcdefghij")).
Proof.
  refine (proj2 (proj2 (generate_seed_inside (str "abcdefghij")
                          default_seq_lens (λ _, 1%N)) _ (str "bcde") _)).
  - repeat constructor; lia.
  - reflexivity.
Defined.

(** ** Generation from the command line *)

Lemma generate_seed_default_short text s :
  len text < 3 →
  (generate_seed text default_seq_lens s).1 = Raise ValueError.
Proof.
  intros Hshort.
  destruct (random_choice default_seq_lens s).1 as [seq_len|e] eqn:Hchoice.
  - destruct (random_choice_Ok _ _ _ Hchoice) as (_ & Hin & _).
    assert (2 <= seq_len) as Hlen.
    { unfold default_seq_lens in Hin.
      repeat (apply elem_of_cons in Hin as [->|Hin]; [lia|]).
      by apply elem_of_nil in Hin. }
    apply (generate_seed_chosen text default_seq_lens s seq_len Hchoice);
      lia.
  - unfold random_choice in Hchoice.
    rewrite decide_False in Hchoice by done.
    cbn [fst snd randbelow] in Hchoice. unfold getitem in Hchoice.
    change (len default_seq_lens) with 5 in Hchoice.
    pose proof (Z.mod_pos_bound (Z.of_N (s 0%nat)) 5 ltac:(lia)) as Hr.
    destruct (decide (Z.of_N (s 0%nat) `mod` 5 < 0)) as [|_]; [lia|].
    rewrite decide_True in Hchoice by lia.
    destruct (lookup_lt_is_Some_2 default_seq_lens
                (Z.to_nat (Z.of_N (s 0%nat) `mod` 5))) as [c Hc];
      [cbn; lia|].
    rewrite Hc in Hchoice. discriminate Hchoice.
Qed.

(** X22.  [generate_main]: an empty seed given on the command line
    raises [IndexError]; without a seed, a text of fewer than 3 characters
    raises [ValueError] in the seed selector, whatever the pseudo-random
    source draws; and a text that is returned starts with a seed of one of
    the default lengths, cut from the text before its last character,
    followed by at most [length] characters. *)
Theorem generate_main_seed (m : model) (text : list N) length top_n
    s_random s_numpy :
  generate_main m text (Some []) length top_n s_random s_numpy
  = Raise IndexError ∧
  (len text < 3 →
   generate_main m text None length top_n s_random s_numpy
   = Raise ValueError) ∧
  (∀ out,
     generate_main m text None length top_n s_random s_numpy = Ok out →
     ∃ seed added start,
       out = (seed ++ added)%list ∧
       Z.of_nat (List.length seed) ∈ default_seq_lens ∧
       (start + List.length seed < List.length text)%nat ∧
       seed = take (List.length seed) (drop start text) ∧
       (List.length added <= Z.to_nat length)%nat).
Proof.
  split; [reflexivity|]. split.
  - intros Hshort. unfold generate_main.
    by rewrite generate_seed_default_short.
  - intros out. unfold generate_main.
    destruct (generate_seed text default_seq_lens s_random).1 as [seed|e]
      eqn:Hseed; [|intros H; discriminate H].
    rewrite bind_Ok. unfold generate_text. cbv zeta.
    destruct (prime m _ _).1 as [[]|]; [|intros H; discriminate H].
    rewrite bind_Ok.
    destruct (getitem _ _) as [next_index|]; [|intros H; discriminate H].
    rewrite bind_Ok. intros Hout.
    apply generate_loop_extends in Hout as (added & -> & Hadded & _).
    assert (Forall (λ c, 0 <= c) default_seq_lens) as Hpos
      by (repeat constructor; lia).
    destruct (generate_seed_within text default_seq_lens s_random Hpos
                seed Hseed) as (Hin & start & Hstart & Heq).
    exists seed, added, start. repeat split; assumption.
Qed.

Lemma generate_main_seed_witness :
  generate_main two_ids_model (str "ab") None 5 2 (λ _, 1%N) (λ _, 5%N)
  = Raise ValueError.
Proof.
  apply (proj1 (proj2 (generate_main_seed two_ids_model (str "ab") 5 2
                         (λ _, 1%N) (λ _, 5%N)))).
  vm_compute. reflexivity.
Defined.

(** ** The batch counts of [train_main] *)

Lemma div_pred (v d : Z) :
  0 < d →
  v `div` d = (v - 1) `div` d + (if decide (v `mod` d = 0) then 1 else 0).
Proof.
  intros Hd.
  pose proof (Z.div_mod v d ltac:(lia)) as Hv.
  pose proof (Z.mod_pos_bound v d Hd) as Hr.
  destruct (decide (v `mod` d = 0)) as [Hz|Hnz].
  - assert ((v - 1) `div` d = v `div` d - 1) as ->; [|lia].
    symmetry. apply (Z.div_unique _ _ _ (d - 1)); lia.
  - assert ((v - 1) `div` d = v `div` d) as ->; [|lia].
    symmetry. apply (Z.div_unique _ _ _ (v `mod` d - 1)); lia.
Qed.

Lemma batches_per_epoch_Z (n batch_size seq_len : nat) :
  (0 < n)%nat →
  Z.of_nat (batches_per_epoch n batch_size seq_len)
  = (Z.of_nat n - 1) `div` (Z.of_nat batch_size * Z.of_nat seq_len).
Proof.
  intros Hn. unfold batches_per_epoch.
  rewrite Nat2Z.inj_div, Nat2Z.inj_mul, Nat2Z.inj_sub by lia. reflexivity.
Qed.

(** X23.  The batch counts of [train_main].  When the training data is
    set up, [num_batches] is the number of batches per epoch of the training
    generator, and that generator has yielded its first batch already when
    it is handed to [fit_generator].  [num_val_batches] is the number of
    batches per epoch of the validation generator when [val_split_index] is
    no multiple of [batch_size * seq_len], and one more when it is; for
    [val_split_index = batch_size * seq_len] it is 1 although the
    validation generator raises [ValueError] at its first call. *)
Theorem train_main_batch_counts (text : list N) (val_split_index : Z)
    (batch_size seq_len : nat) (d : training_data) :
  0 <= val_split_index <= len text →
  train_main_data text val_split_index batch_size seq_len = Ok d →
  let v := Z.to_nat val_split_index in
  let train := encode_text (drop v text) CHAR2ID in
  let val := encode_text (take v text) CHAR2ID in
  steps_per_epoch d
  = Z.of_nat (batches_per_epoch (length train) batch_size seq_len) ∧
  (∀ n, nth_batch n (train_generator d)
        = nth_batch (S n) (batch_generator train batch_size seq_len false true))
  ∧
  val_generator d = batch_generator val batch_size seq_len false true ∧
  (0 < val_split_index →
   validation_steps d
   = Z.of_nat (batches_per_epoch (length val) batch_size seq_len)
     + (if decide (val_split_index
                     `mod` (Z.of_nat batch_size * Z.of_nat seq_len) = 0)
        then 1 else 0)) ∧
  (val_split_index = Z.of_nat batch_size * Z.of_nat seq_len →
   validation_steps d = 1 ∧
   next_batch (val_generator d) = (Raise ValueError, Finished)).
Proof.
  intros Hv Hd v train val. unfold train_main_data in Hd. cbv zeta in Hd.
  assert (slice text (Some 0) (Some val_split_index) = take v text) as Hval.
  { rewrite slice_within by lia. rewrite Z.sub_0_r.
    change (Z.to_nat 0) with 0%nat. by rewrite drop_0. }
  assert (slice text (Some val_split_index) None = drop v text) as Htrain.
  { rewrite slice_drop. unfold slice_bound.
    rewrite decide_False by lia. by rewrite Z.min_l by lia. }
  rewrite Hval, Htrain in Hd. fold train val in Hd.
  unfold floordiv in Hd.
  destruct (decide (Z.of_nat batch_size * Z.of_nat seq_len = 0)) as [|Hsize];
    [discriminate Hd|].
  rewrite !bind_Ok in Hd.
  destruct (next_batch (batch_generator train batch_size seq_len false true))
    as [[bt|e] g'] eqn:Hfirst; [|discriminate Hd].
  cbn [fst snd] in Hd. rewrite bind_Ok in Hd. injection Hd as <-.
  cbn [steps_per_epoch validation_steps val_generator train_generator].
  assert (nth_batch 0 (batch_generator train batch_size seq_len false true)
          = Ok bt) as Hnth
    by (unfold nth_batch; cbn [after_batches]; by rewrite Hfirst).
  destruct (nth_batch_inv _ _ _ _ _ _ _ Hnth) as (HB & HL & Hdata & _).
  assert (length train = (length text - v)%nat) as Hlen_train
    by (unfold train; by rewrite encode_text_length, length_drop).
  assert (length val = v) as Hlen_val.
  { unfold val. rewrite encode_text_length, length_take.
    unfold len in Hv. lia. }
  split; [|split; [|split; [|split]]].
  - rewrite batches_per_epoch_Z by lia. rewrite Hlen_train.
    f_equal. unfold len in *. lia.
  - intros n. unfold nth_batch. cbn [after_batches]. by rewrite Hfirst.
  - reflexivity.
  - intros Hpos. rewrite batches_per_epoch_Z by lia.
    rewrite Hlen_val. unfold v. rewrite Z2Nat.id by lia.
    apply div_pred. lia.
  - intros ->. split.
    + apply Z.div_same. lia.
    + apply batch_setup_raises, batch_setup_short; [done..|].
      rewrite Hlen_val. unfold v. lia.
Qed.

Lemma train_main_batch_counts_witness :
  ∃ d, train_main_data (str "abcdefghijklmnopqrstuvwxy") 4 2 2 = Ok d ∧
       steps_per_epoch d = 5 ∧ validation_steps d = 1 ∧
       next_batch (val_generator d) = (Raise ValueError, Finished).
Proof.
  eexists. split; [vm_compute; reflexivity|].
  destruct (train_main_batch_counts (str "abcdefghijklmnopqrstuvwxy") 4 2 2 _
              ltac:(vm_compute; split; discriminate)
              ltac:(vm_compute; reflexivity))
    as (Hsteps & _ & _ & _ & Hval).
  split; [exact Hsteps|]. exact (Hval eq_refl).
Defined.

(** ** The symbol table as a bijection *)

(** X24.  The two tables of [create_dictionary] are inverse to each
    other: [char2id] maps [k] to [i] exactly when [id2char] maps [i] to
    [k].  The ids are those of [0 .. VOCAB_SIZE - 1], id 0 belongs to the
    empty string alone, and the ids of the characters follow the order of
    their code points. *)
Theorem create_dictionary_bijection (k : list N) (i : Z) :
  (CHAR2ID !! k = Some i ↔ ID2CHAR !! i = Some k) ∧
  (CHAR2ID !! k = Some i →
   0 <= i < VOCAB_SIZE ∧ (i = 0 ↔ k = []) ∧
   ∀ k' i', CHAR2ID !! k' = Some i' → code_point_order k k' i i').
Proof.
  assert (map_Forall (λ k i, ID2CHAR !! i = Some k) CHAR2ID) as Hto
    by (apply (bool_decide_unpack _); vm_compute; reflexivity).
  assert (map_Forall (λ i k, CHAR2ID !! k = Some i) ID2CHAR) as Hfrom
    by (apply (bool_decide_unpack _); vm_compute; reflexivity).
  assert (map_Forall (λ k i, i = 0 ↔ k = []) CHAR2ID) as Hzero
    by (apply (bool_decide_unpack _); vm_compute; reflexivity).
  assert (map_Forall (λ k i,
            map_Forall (λ k' i', code_point_order k k' i i') CHAR2ID)
            CHAR2ID) as Horder.
  { apply (bool_decide_unpack _). vm_compute. reflexivity. }
  split.
  - split; [apply Hto|apply Hfrom].
  - intros Hk. split; [exact (CHAR2ID_range k i Hk)|].
    split; [exact (Hzero k i Hk)|].
    intros k' i' Hk'. exact (Horder k i Hk k' i' Hk').
Qed.

Lemma create_dictionary_bijection_witness :
  ID2CHAR !! 68 = Some (str "a") ∧ 0 <= 68 < VOCAB_SIZE.
Proof.
  assert (CHAR2ID !! str "a" = Some 68) as Ha by (vm_compute; reflexivity).
  destruct (create_dictionary_bijection (str "a") 68) as [Hiff Hrange].
  split; [exact (proj1 Hiff Ha)|exact (proj1 (Hrange Ha))].
Defined.

(** ** Greedy sampling *)

Lemma sort_le_refl v : sort_le v v = true.
Proof.
  destruct (sort_le v v) eqn:H; [done|].
  pose proof (sort_le_total v v H). congruence.
Qed.

Lemma retained_one probs i j :
  i ∈ retained probs 1 → j ∈ retained probs 1 → i = j.
Proof.
  unfold retained. rewrite slice_drop.
  set (k := Z.to_nat _).
  assert (length (drop k (np_argsort probs)) <= 1)%nat as Hlen.
  { rewrite length_drop. unfold k, slice_bound, len.
    rewrite decide_True by lia. lia. }
  destruct (drop k (np_argsort probs)) as [|a [|b l]]; cbn in Hlen; [| |lia].
  - by intros ?%elem_of_nil.
  - intros ->%list_elem_of_singleton ->%list_elem_of_singleton. done.
Qed.

(** X25.  With [top_n = 1] the sampler is greedy: an index that it
    returns holds a largest entry of [probs], whatever the pseudo-random
    source draws. *)
Theorem sample_top_1_is_argmax probs s i s' :
  sample_from_probs probs 1 s = (Ok i, s') →
  ∃ w, probs !! Z.to_nat i = Some w ∧
       ∀ j v, probs !! j = Some v → sort_le v w = true.
Proof.
  intros Hsample.
  destruct (sample_from_probs_lands _ _ _ _ _ Hsample)
    as (Hrange & Hret & (q & Hq & _) & _).
  exists (Fin q). split; [exact Hq|]. intros j v Hv.
  destruct (decide (Z.of_nat j ∈ retained probs 1)) as [Hj|Hj].
  - pose proof (retained_one _ _ _ Hret Hj) as ->.
    rewrite Nat2Z.id in Hq. rewrite Hq in Hv. injection Hv as <-.
    apply sort_le_refl.
  - apply lookup_lt_Some in Hv as Hlt.
    destruct (zeroed_or_retained probs 1 j Hlt) as [[Hz _]|[_ Hr]];
      [|exfalso; by apply Hj].
    apply (zeroed_below_retained probs 1 j (Z.to_nat i) v (Fin q) Hv Hq Hz).
    by rewrite Z2Nat.id by lia.
Qed.

Lemma sample_top_1_is_argmax_witness :
  ∃ w, [Fin (1 # 8); Fin (1 # 2); Fin (3 # 8)] !! Z.to_nat 1 = Some w ∧
       ∀ j v, [Fin (1 # 8); Fin (1 # 2); Fin (3 # 8)] !! j = Some v →
              sort_le v w = true.
Proof.
  apply (sample_top_1_is_argmax [Fin (1 # 8); Fin (1 # 2); Fin (3 # 8)]
           (λ _, 5%N) 1 (advance (λ _, 5%N))).
  vm_compute. reflexivity.
Defined.

(** ** Rows of the streaming generator from one batch to the next *)




(** ** The streaming generator, chunk by chunk, is the in-memory one *)





(** ** How the sampler fails *)






(** ** How the generation loop fails *)




